(** * Fraud-detection front end and schema: a shallow embedding

    Two artifacts of the repository are modelled here.

    - [static/js/main.js]: the two guarded wrappers [navigateTo] and
      [safeSubmit], over an explicit model of the browser state they touch
      (the location, the elements of the document with their submit
      listeners, the console and the alert dialog).
    - [database/schema_postgresql.sql]: the four tables with the constraints
      the script declares, the seed rows, and the row-insertion semantics of
      the engine the script is written for. *)

From Stdlib Require Import ZArith Lia Ascii String DecimalString.
From stdpp Require Import base strings list gmap.

Local Open Scope string_scope.
Local Open Scope list_scope.
Set Warnings "-register-all".

(** ** Part I: static/js/main.js *)

Module MainJs.

Section Script.

(** The script never inspects the values it catches, the callback it is
    handed, or the rest of the JavaScript heap: they stay abstract. *)
Context {JsValue Callback Heap : Type}.

(** The function expression [function(e) { ... }] in [safeSubmit] evaluates
    to a new function object at every call; [fn_id] is that identity and
    [fn_callback] the captured [callback]. *)
Record Listener := mkListener { fn_id : nat; fn_callback : Callback }.

(** An element of the page, whether or not it is in the document. *)
Definition Element : Type := nat.

(** What the script can observe or change in the page: the location, the
    element the document has for each id, the submit listeners of each
    element in registration order (no entry: none), the number of function
    objects created so far, and the rest of the heap. *)
Record World := mkWorld {
  href : string;
  document : gmap string Element;
  listeners : gmap Element (list Listener);
  next_fn : nat;
  heap : Heap
}.

Definition listeners_of (w : World) (target : Element) : list Listener :=
  default [] (listeners w !! target).

(** Observable effects, in program order. [Invoke c inner] is one call
    [c()] together with whatever that call did; [ReportError] is the event
    loop reporting an exception no handler caught. *)
Inductive Effect :=
| ConsoleLog (message : string)
| ConsoleError (message : string) (error : JsValue)
| Alert (message : string)
| Invoke (callback : Callback) (inner : list Effect)
| ReportError (error : JsValue).

Inductive Completion (A : Type) :=
| Normal (a : A)
| Throw (error : JsValue).
Global Arguments Normal {A} a.
Global Arguments Throw {A} error.

(** A JavaScript computation over a state [S]: it completes normally or
    abruptly, leaves a state, and has emitted effects. *)
Definition M (S A : Type) : Type := S -> Completion A * S * list Effect.

Definition ret {S A} (a : A) : M S A := fun s => (Normal a, s, []).

Definition bind {S A B} (m : M S A) (k : A -> M S B) : M S B :=
  fun s =>
    match m s with
    | (Normal a, s1, t1) => let '(c, s2, t2) := k a s1 in (c, s2, t1 ++ t2)
    | (Throw v, s1, t1) => (Throw v, s1, t1)
    end.

(** [try { m } catch (error) { h error }] *)
Definition try_catch {S A} (m : M S A) (h : JsValue -> M S A) : M S A :=
  fun s =>
    match m s with
    | (Normal a, s1, t1) => (Normal a, s1, t1)
    | (Throw v, s1, t1) => let '(c, s2, t2) := h v s1 in (c, s2, t1 ++ t2)
    end.

Definition emit {S} (e : Effect) : M S unit := fun s => (Normal tt, s, [e]).

Declare Scope js_scope.
Notation "x ← y ; z" := (bind y (fun x => z))
  (at level 20, y at level 100, z at level 200, only parsing) : js_scope.
Notation "x ;; z" := (bind x (fun _ => z))
  (at level 100, z at level 200, only parsing, right associativity) : js_scope.
Local Open Scope js_scope.

Definition JS (A : Type) : Type := M World A.

(** *** The browser interface the script uses *)

(** The environment decides whether an assignment to [window.location.href]
    throws (and what), and what a call of a callback does. *)
Variable assign_fails : string -> World -> option JsValue.
Variable call : Callback -> JS unit.

Definition console_log {S} (message : string) : M S unit :=
  emit (ConsoleLog message).
Definition console_error {S} (message : string) (error : JsValue) : M S unit :=
  emit (ConsoleError message error).
Definition alert {S} (message : string) : M S unit :=
  emit (Alert message).

(** [href] records the string last assigned to the location; resolving it
    against the current address and loading the page it names is the
    browser's business once the script has returned. *)
Definition with_href (url : string) (w : World) : World :=
  {| href := url; document := document w; listeners := listeners w;
     next_fn := next_fn w; heap := heap w |}.

(** [window.location.href = url] *)
Definition set_location_href (url : string) : JS unit :=
  fun w =>
    match assign_fails url w with
    | Some v => (Throw v, w, [])
    | None => (Normal tt, with_href url w, [])
    end.

(** [document.getElementById(formId)]: the element or [null]. *)
Definition getElementById (formId : string) : JS (option Element) :=
  fun w => (Normal (document w !! formId), w, []).

(** Evaluating a function expression allocates a function object. *)
Definition new_function (callback : Callback) : JS Listener :=
  fun w =>
    (Normal (mkListener (next_fn w) callback),
     {| href := href w; document := document w; listeners := listeners w;
        next_fn := S (next_fn w); heap := heap w |},
     []).

Definition same_function (l1 l2 : Listener) : bool :=
  Nat.eqb (fn_id l1) (fn_id l2).

(** [target.addEventListener('submit', listener)]: the listener is appended
    unless the very same function object is already registered. *)
Definition add_listener (l : Listener) (ls : list Listener) : list Listener :=
  if existsb (same_function l) ls then ls else ls ++ [l].

Definition addEventListener (target : Element) (l : Listener) : JS unit :=
  fun w =>
    (Normal tt,
     {| href := href w; document := document w;
        listeners := <[target := add_listener l (listeners_of w target)]> (listeners w);
        next_fn := next_fn w; heap := heap w |},
     []).

(** [callback()] *)
Definition invoke (callback : Callback) : JS unit :=
  fun w => let '(c, w', t) := call callback w in (c, w', [Invoke callback t]).

(** The event object handed to a listener. *)
Record Event := mkEvent { cancelable : bool; defaultPrevented : bool }.

(** [e.preventDefault()] sets the canceled flag of a cancelable event. *)
Definition preventDefault : M (Event * World) unit :=
  fun '(e, w) =>
    (Normal tt,
     (mkEvent (cancelable e) (cancelable e || defaultPrevented e), w),
     []).

(** Script code that does not mention the event runs on the world alone. *)
Definition on_world {A} (m : JS A) : M (Event * World) A :=
  fun '(e, w) => let '(c, w', t) := m w in (c, (e, w'), t).

(** *** The script *)

(** [function navigateTo(url)], main.js lines 5-12. *)
Definition navigateTo (url : string) : JS unit :=
  try_catch
    (set_location_href url)
    (fun error =>
       console_error "Navigation error:" error ;;
       alert "Navigation error. Please refresh the page.").

(** The listener registered by [safeSubmit], main.js lines 18-26. *)
Definition onSubmit (callback : Callback) : M (Event * World) unit :=
  preventDefault ;;
  try_catch
    (on_world (invoke callback))
    (fun error =>
       console_error "Form submission error:" error ;;
       alert "Error submitting form. Please try again.").

(** [function safeSubmit(formId, callback)], main.js lines 15-28. *)
Definition safeSubmit (formId : string) (callback : Callback) : JS unit :=
  form ← getElementById formId;
  match form with
  | Some form =>
      listener ← new_function callback;
      addEventListener form listener
  | None => ret tt
  end.

(** The statement at the top of the script, main.js line 2. The listener
    registered at lines 31-36 is [onDOMContentLoaded] below. *)
Definition script_loaded : JS unit :=
  console_log "FraudGuard AI System Loaded".

(** [function initializeGlobalFeatures()], main.js lines 38-41. *)
Definition initializeGlobalFeatures : JS unit :=
  console_log "Initializing global features...".

(** The DOMContentLoaded listener, main.js lines 31-36. *)
Definition onDOMContentLoaded : JS unit :=
  console_log "Page loaded successfully" ;;
  initializeGlobalFeatures.

(** *** Submitting a form *)

(** The listeners of the target run in registration order on the same event
    object; an exception escaping a listener is reported and the dispatch
    goes on. *)
Fixpoint run_listeners (ls : list Listener) : M (Event * World) unit :=
  match ls with
  | [] => ret tt
  | l :: rest =>
      try_catch (onSubmit (fn_callback l)) (fun error => emit (ReportError error)) ;;
      run_listeners rest
  end.

(** The event the browser fires when a form is submitted: cancelable, not
    yet canceled. *)
Definition submitEvent : Event := mkEvent true false.

(** The user submits [form]. The listeners registered at that moment run;
    the result says whether the browser then goes on with its default
    submission. *)
Definition submitForm (form : Element) (w : World) : bool * World * list Effect :=
  let '(_, (e, w'), t) := run_listeners (listeners_of w form) (submitEvent, w) in
  (negb (defaultPrevented e), w', t).

(** *** Traces and steps *)

Definition is_console_error (e : Effect) : bool :=
  match e with ConsoleError _ _ => true | _ => false end.
Definition is_alert (e : Effect) : bool :=
  match e with Alert _ => true | _ => false end.
Definition is_report (e : Effect) : bool :=
  match e with ReportError _ => true | _ => false end.

(** Effects of the script itself: what happened inside a callback stays
    inside its [Invoke] node. *)
Definition errors_logged (t : list Effect) : nat :=
  length (filter (fun e => is_console_error e = true) t).
Definition alerts_shown (t : list Effect) : nat :=
  length (filter (fun e => is_alert e = true) t).
Definition errors_reported (t : list Effect) : nat :=
  length (filter (fun e => is_report e = true) t).

(** The callbacks called, in order. *)
Fixpoint invocations (t : list Effect) : list Callback :=
  match t with
  | [] => []
  | Invoke c _ :: rest => c :: invocations rest
  | _ :: rest => invocations rest
  end.

(** What can happen to a page that runs the script: calls of its two
    functions, other script code, form submissions, the page-load event. *)
Inductive Action :=
| CallNavigateTo (url : string)
| CallSafeSubmit (formId : string) (callback : Callback)
| RunScript (code : Callback)
| SubmitForm (form : Element)
| PageLoaded.

Definition perform (a : Action) (w : World) : World * list Effect :=
  match a with
  | CallNavigateTo url => let '(_, w', t) := navigateTo url w in (w', t)
  | CallSafeSubmit formId callback =>
      let '(_, w', t) := safeSubmit formId callback w in (w', t)
  | RunScript code => let '(_, w', t) := call code w in (w', t)
  | SubmitForm form => let '(_, w', t) := submitForm form w in (w', t)
  | PageLoaded => let '(_, w', t) := onDOMContentLoaded w in (w', t)
  end.

Fixpoint perform_all (acts : list Action) (w : World) : World * list Effect :=
  match acts with
  | [] => (w, [])
  | a :: rest =>
      let '(w1, t1) := perform a w in
      let '(w2, t2) := perform_all rest w1 in
      (w2, t1 ++ t2)
  end.

Definition completion_of {S A} (r : Completion A * S * list Effect) : Completion A := r.1.1.
Definition state_of {S A} (r : Completion A * S * list Effect) : S := r.1.2.
Definition trace_of {S A} (r : Completion A * S * list Effect) : list Effect := r.2.

(** [extends w w']: in [w'] every element has the listeners it had in [w],
    in order, and possibly more after them. *)
Definition extends (w w' : World) : Prop :=
  ∀ target, ∃ more, listeners_of w' target = listeners_of w target ++ more.

(** Script code may register listeners but cannot take one of these away:
    the DOM removes a listener only when handed the function object itself,
    and the one [safeSubmit] creates is never bound to a name. *)
Definition keeps_listeners : Prop :=
  ∀ c w, extends w (state_of (call c w)).

(** Function identities handed out so far are below [next_fn]. *)
Definition fresh_for (w : World) (ls : list Listener) : Prop :=
  ∀ l, l ∈ ls → fn_id l < next_fn w.

(** The event after [preventDefault]. *)
Definition canceled (e : Event) : Event :=
  mkEvent (cancelable e) (cancelable e || defaultPrevented e).

(** *** Properties of the wrappers *)

Lemma extends_refl w : extends w w.
Proof. intros target. exists []. by rewrite app_nil_r. Qed.

Lemma extends_trans w1 w2 w3 : extends w1 w2 → extends w2 w3 → extends w1 w3.
Proof.
  intros H12 H23 target.
  destruct (H12 target) as [m1 H1].
  destruct (H23 target) as [m2 H2].
  exists (m1 ++ m2). by rewrite H2, H1, app_assoc.
Qed.

Lemma add_listener_prefix l ls : ∃ more, add_listener l ls = ls ++ more.
Proof.
  unfold add_listener. destruct (existsb _ ls).
  - exists []. by rewrite app_nil_r.
  - by exists [l].
Qed.

Lemma add_listener_fresh l ls :
  (∀ l', l' ∈ ls → fn_id l' ≠ fn_id l) → add_listener l ls = ls ++ [l].
Proof.
  intros Hfresh. unfold add_listener.
  destruct (existsb (same_function l) ls) eqn:Hex; [|done].
  apply existsb_exists in Hex as (l' & Hin & Heq).
  apply Nat.eqb_eq in Heq. apply list_elem_of_In in Hin.
  by destruct (Hfresh l' Hin).
Qed.

Lemma navigateTo_run url w :
  navigateTo url w =
    match assign_fails url w with
    | None => (Normal tt, with_href url w, [])
    | Some error =>
        (Normal tt, w,
         [ConsoleError "Navigation error:" error;
          Alert "Navigation error. Please refresh the page."])
    end.
Proof.
  unfold navigateTo, try_catch, set_location_href.
  by destruct (assign_fails url w).
Qed.

Lemma navigateTo_extends url w : extends w (state_of (navigateTo url w)).
Proof.
  rewrite navigateTo_run.
  destruct (assign_fails url w); [apply extends_refl|].
  intros target. exists []. by rewrite app_nil_r.
Qed.

Lemma safeSubmit_run formId callback w :
  safeSubmit formId callback w =
    match document w !! formId with
    | None => (Normal tt, w, [])
    | Some form =>
        (Normal tt,
         {| href := href w; document := document w;
            listeners :=
              <[form := add_listener (mkListener (next_fn w) callback)
                          (listeners_of w form)]> (listeners w);
            next_fn := S (next_fn w); heap := heap w |},
         [])
    end.
Proof.
  unfold safeSubmit, bind, getElementById.
  by destruct (document w !! formId) as [form|].
Qed.

Lemma safeSubmit_registers formId callback w form :
  document w !! formId = Some form →
  listeners_of (state_of (safeSubmit formId callback w)) form
  = add_listener (mkListener (next_fn w) callback) (listeners_of w form).
Proof.
  intros Hform. rewrite safeSubmit_run, Hform.
  unfold state_of, listeners_of. simpl. by rewrite lookup_insert_eq.
Qed.

Lemma safeSubmit_extends formId callback w :
  extends w (state_of (safeSubmit formId callback w)).
Proof.
  rewrite safeSubmit_run.
  destruct (document w !! formId) as [form|]; [|apply extends_refl].
  intros target. unfold state_of, listeners_of. simpl.
  destruct (decide (form = target)) as [->|Hne].
  - rewrite lookup_insert_eq. simpl. apply add_listener_prefix.
  - rewrite lookup_insert_ne by done. exists []. by rewrite app_nil_r.
Qed.

Lemma onSubmit_run callback e w :
  onSubmit callback (e, w) =
    match call callback w with
    | (Normal _, w1, t1) => (Normal tt, (canceled e, w1), [Invoke callback t1])
    | (Throw error, w1, t1) =>
        (Normal tt, (canceled e, w1),
         [Invoke callback t1;
          ConsoleError "Form submission error:" error;
          Alert "Error submitting form. Please try again."])
    end.
Proof.
  unfold onSubmit, bind, try_catch, preventDefault, on_world, invoke. simpl.
  destruct (call callback w) as [[[[]|error] w1] t1]; reflexivity.
Qed.

(** The listener itself never completes abruptly. *)
Lemma onSubmit_normal callback e w :
  completion_of (onSubmit callback (e, w)) = Normal tt.
Proof.
  rewrite onSubmit_run. by destruct (call callback w) as [[[[]|error] w1] t1].
Qed.

Lemma run_listeners_cons l rest e w :
  run_listeners (l :: rest) (e, w) =
    let '(_, (e1, w1), t1) := onSubmit (fn_callback l) (e, w) in
    let '(c, s2, t2) := run_listeners rest (e1, w1) in
    (c, s2, t1 ++ t2).
Proof.
  simpl. unfold bind at 1. unfold try_catch at 1.
  pose proof (onSubmit_normal (fn_callback l) e w) as Hn.
  destruct (onSubmit (fn_callback l) (e, w)) as [[c [e1 w1]] t1].
  unfold completion_of in Hn. simpl in Hn. subst c. reflexivity.
Qed.

(** One dispatch: it completes, nothing is reported to the event loop, every
    registered callback is called once in registration order, and the event
    ends up canceled as soon as there was a listener. *)
Lemma run_listeners_spec ls : ∀ e w,
  let r := run_listeners ls (e, w) in
  completion_of r = Normal tt
  ∧ (state_of r).1 = match ls with [] => e | _ => canceled e end
  ∧ errors_reported (trace_of r) = 0
  ∧ invocations (trace_of r) = map fn_callback ls.
Proof.
  induction ls as [|l rest IH]; intros e w; [done|].
  cbv zeta. rewrite run_listeners_cons.
  pose proof (onSubmit_run (fn_callback l) e w) as Hon.
  destruct (onSubmit (fn_callback l) (e, w)) as [[c1 [e1 w1]] t1].
  specialize (IH e1 w1). cbv zeta in IH.
  destruct (run_listeners rest (e1, w1)) as [[c2 [e2 w2]] t2].
  unfold completion_of, state_of, trace_of in *. simpl in *.
  destruct IH as (Hc & He & Hr & Hi).
  assert (e1 = canceled e
          ∧ errors_reported t1 = 0
          ∧ invocations t1 = [fn_callback l]) as (-> & Hr1 & Hi1).
  { destruct (call (fn_callback l) w) as [[[[]|error] w0] t0];
      by inversion Hon. }
  split; [done|]. split.
  { rewrite He. destruct rest; [done|].
    unfold canceled. simpl. by destruct (cancelable e), (defaultPrevented e). }
  split.
  - unfold errors_reported in *. rewrite filter_app, length_app. lia.
  - assert (∀ a b, invocations (a ++ b) = invocations a ++ invocations b) as Happ.
    { induction a as [|[] a IHa]; intros b; simpl; by rewrite ?IHa. }
    by rewrite Happ, Hi1, Hi.
Qed.

Lemma onSubmit_extends callback e w :
  keeps_listeners → extends w (state_of (onSubmit callback (e, w))).2.
Proof.
  intros Hk. rewrite onSubmit_run. specialize (Hk callback w).
  by destruct (call callback w) as [[[[]|error] w1] t1].
Qed.

Lemma run_listeners_extends ls : ∀ e w,
  keeps_listeners → extends w (state_of (run_listeners ls (e, w))).2.
Proof.
  induction ls as [|l rest IH]; intros e w Hk; [apply extends_refl|].
  rewrite run_listeners_cons.
  pose proof (onSubmit_extends (fn_callback l) e w Hk) as H1.
  destruct (onSubmit (fn_callback l) (e, w)) as [[c1 [e1 w1]] t1].
  specialize (IH e1 w1 Hk).
  destruct (run_listeners rest (e1, w1)) as [[c2 [e2 w2]] t2].
  unfold state_of in *. simpl in *. by eapply extends_trans.
Qed.

Lemma perform_extends a w : keeps_listeners → extends w (perform a w).1.
Proof.
  intros Hk. destruct a as [url|formId callback|code|form|]; simpl.
  - pose proof (navigateTo_extends url w) as H.
    by destruct (navigateTo url w) as [[c w'] t].
  - pose proof (safeSubmit_extends formId callback w) as H.
    by destruct (safeSubmit formId callback w) as [[c w'] t].
  - pose proof (Hk code w) as H.
    by destruct (call code w) as [[c w'] t].
  - unfold submitForm.
    pose proof (run_listeners_extends (listeners_of w form) submitEvent w Hk) as H.
    by destruct (run_listeners _ (submitEvent, w)) as [[c [e w']] t].
  - apply extends_refl.
Qed.

Lemma perform_all_extends acts : ∀ w,
  keeps_listeners → extends w (perform_all acts w).1.
Proof.
  induction acts as [|a rest IH]; intros w Hk; [apply extends_refl|].
  simpl. pose proof (perform_extends a w Hk) as H1.
  destruct (perform a w) as [w1 t1]. specialize (IH w1 Hk).
  destruct (perform_all rest w1) as [w2 t2]. by eapply extends_trans.
Qed.

(** A form with at least one listener is not submitted by the browser. *)
Lemma submitForm_guarded form w l ls :
  listeners_of w form = l :: ls →
  ∃ w' t, submitForm form w = (false, w', t).
Proof.
  intros Hls. unfold submitForm. rewrite Hls.
  destruct (run_listeners_spec (l :: ls) submitEvent w) as (_ & He & _).
  destruct (run_listeners (l :: ls) (submitEvent, w)) as [[c [e w']] t].
  unfold state_of in He. simpl in He. subst e. by exists w', t.
Qed.

Lemma add_listener_nonempty l ls : add_listener l ls ≠ [].
Proof.
  unfold add_listener. destruct (existsb (same_function l) ls) eqn:Hex.
  - by destruct ls.
  - by destruct ls.
Qed.

(** C1. Once [safeSubmit] has been called with the id of an element of the
    document, every later submission of that form, whatever the page did in
    between and whether the callbacks return or throw, ends with the event
    canceled: the browser does not perform its default submission. The
    listener applies [preventDefault] to whatever event it is handed. *)
Theorem safeSubmit_prevents_default
  (formId : string) (callback : Callback) (w : World) (form : Element)
  (acts : list Action) :
  keeps_listeners →
  document w !! formId = Some form →
  (∃ w' t,
     submitForm form
       (perform_all acts (state_of (safeSubmit formId callback w))).1
     = (false, w', t))
  ∧ (∀ e w0, (state_of (onSubmit callback (e, w0))).1 = canceled e).
Proof.
  intros Hk Hform. split.
  - pose proof (perform_all_extends acts
                  (state_of (safeSubmit formId callback w)) Hk form)
      as [more Hmore].
    rewrite (safeSubmit_registers _ _ _ _ Hform) in Hmore.
    pose proof (add_listener_nonempty (mkListener (next_fn w) callback)
                  (listeners_of w form)) as Hne.
    destruct (add_listener _ (listeners_of w form)) as [|l0 ls0]; [done|].
    by eapply submitForm_guarded.
  - intros e w0. rewrite onSubmit_run.
    by destruct (call callback w0) as [[[[]|error] w1] t1].
Qed.

(** C2. When the callback throws, the listener catches the exception: it
    completes normally, and besides the call itself its effects are exactly
    one [console.error] and one [alert]. No dispatch ever hands an
    exception to the event loop. *)
Theorem onSubmit_catches
  (callback : Callback) (e : Event) (w w1 : World)
  (error : JsValue) (t1 : list Effect) :
  call callback w = (Throw error, w1, t1) →
  let r := onSubmit callback (e, w) in
  completion_of r = Normal tt
  ∧ state_of r = (canceled e, w1)
  ∧ trace_of r =
      [Invoke callback t1;
       ConsoleError "Form submission error:" error;
       Alert "Error submitting form. Please try again."]
  ∧ errors_logged (trace_of r) = 1
  ∧ alerts_shown (trace_of r) = 1
  ∧ ∀ ls e0 w0,
      completion_of (run_listeners ls (e0, w0)) = Normal tt
      ∧ errors_reported (trace_of (run_listeners ls (e0, w0))) = 0.
Proof.
  intros Hcall. cbv zeta. rewrite onSubmit_run, Hcall.
  repeat split; try reflexivity.
  - apply (run_listeners_spec ls e0 w0).
  - apply (run_listeners_spec ls e0 w0).
Qed.

(** C3. [navigateTo] never throws. When the assignment succeeds the
    location is [url] and nothing is logged or shown; when it throws, the
    page is left as it was, with exactly one [console.error] and one
    [alert]. *)
Theorem navigateTo_guarded (url : string) (w : World) :
  let r := navigateTo url w in
  completion_of r = Normal tt
  ∧ (assign_fails url w = None →
       state_of r = with_href url w ∧ href (state_of r) = url ∧ trace_of r = [])
  ∧ (∀ error, assign_fails url w = Some error →
       state_of r = w
       ∧ trace_of r =
           [ConsoleError "Navigation error:" error;
            Alert "Navigation error. Please refresh the page."]
       ∧ errors_logged (trace_of r) = 1
       ∧ alerts_shown (trace_of r) = 1).
Proof.
  cbv zeta. rewrite navigateTo_run.
  destruct (assign_fails url w) as [v|].
  - split; [done|]. split; [done|]. by intros error [= <-].
  - split; [done|]. split; [done|]. by intros error [=].
Qed.

(** C4. With no element of that id in the document, [safeSubmit] returns
    at once: the page is as it was, no listener added to any element, and
    nothing logged or shown. *)
Theorem safeSubmit_missing_form
  (formId : string) (callback : Callback) (w : World) :
  document w !! formId = None →
  safeSubmit formId callback w = (Normal tt, w, []).
Proof. intros Hnone. by rewrite safeSubmit_run, Hnone. Qed.

(** C9. Two calls of [safeSubmit] with the same form and callback register
    two listeners, distinct function objects around the same callback, and
    a submission then calls the callback once for each. *)
Theorem safeSubmit_not_idempotent
  (formId : string) (callback : Callback) (w : World) (form : Element) :
  document w !! formId = Some form →
  fresh_for w (listeners_of w form) →
  let w1 := state_of (safeSubmit formId callback w) in
  let w2 := state_of (safeSubmit formId callback w1) in
  ∃ l1 l2,
    fn_callback l1 = callback ∧ fn_callback l2 = callback
    ∧ fn_id l1 ≠ fn_id l2
    ∧ listeners_of w1 form = listeners_of w form ++ [l1]
    ∧ listeners_of w2 form = listeners_of w form ++ [l1; l2]
    ∧ ∃ w' t,
        submitForm form w2 = (false, w', t)
        ∧ invocations t
          = map fn_callback (listeners_of w form) ++ [callback; callback].
Proof.
  intros Hform Hfresh. cbv zeta.
  set (ls := listeners_of w form) in *.
  set (l1 := mkListener (next_fn w) callback).
  set (l2 := mkListener (S (next_fn w)) callback).
  exists l1, l2.
  assert (state_of (safeSubmit formId callback w) =
            {| href := href w; document := document w;
               listeners := <[form := ls ++ [l1]]> (listeners w);
               next_fn := S (next_fn w); heap := heap w |}) as ->.
  { rewrite safeSubmit_run, Hform. unfold state_of. simpl.
    fold ls. rewrite add_listener_fresh; [done|].
    intros l' Hin. specialize (Hfresh l' Hin). simpl. lia. }
  rewrite safeSubmit_run. simpl. rewrite Hform.
  unfold state_of, listeners_of. simpl. rewrite !lookup_insert_eq. simpl.
  rewrite add_listener_fresh.
  2:{ intros l' Hin. apply elem_of_app in Hin as [Hin|Hin].
      - specialize (Hfresh l' Hin). simpl. lia.
      - apply list_elem_of_singleton in Hin as ->. simpl. lia. }
  rewrite <- app_assoc. simpl.
  repeat split; try done.
  unfold submitForm, listeners_of. simpl. rewrite lookup_insert_eq. simpl.
  match goal with |- context [run_listeners ?l (?e, ?w0)] =>
    destruct (run_listeners_spec l e w0) as (_ & He & _ & Hi);
    destruct (run_listeners l (e, w0)) as [[c [e' w']] t] end.
  unfold state_of, trace_of in *. simpl in *.
  exists w', t. split.
  - subst e'. by destruct ls.
  - rewrite Hi, map_app. done.
Qed.

(** *** More on submissions and on what the wrappers leave alone *)

Definition is_run_script (a : Action) : bool :=
  match a with RunScript _ => true | _ => false end.

(** The calls [safeSubmit formId callback] repeated [n] times. *)
Definition safeSubmit_times (n : nat) (formId : string) (callback : Callback)
  (w : World) : World :=
  Nat.iter n (fun w => state_of (safeSubmit formId callback w)) w.

(** The listeners [n] calls of [safeSubmit] create from [first] on. *)
Definition fresh_listeners (first n : nat) (callback : Callback) : list Listener :=
  map (fun i => mkListener (first + i) callback) (seq 0 n).

Lemma errors_logged_app t1 t2 :
  errors_logged (t1 ++ t2) = errors_logged t1 + errors_logged t2.
Proof. unfold errors_logged. by rewrite filter_app, length_app. Qed.

Lemma alerts_shown_app t1 t2 :
  alerts_shown (t1 ++ t2) = alerts_shown t1 + alerts_shown t2.
Proof. unfold alerts_shown. by rewrite filter_app, length_app. Qed.


(** What one listener adds to the console and to the screen. *)
Lemma onSubmit_counts callback e w :
  let t := trace_of (onSubmit callback (e, w)) in
  match completion_of (call callback w) with
  | Normal _ => errors_logged t = 0 ∧ alerts_shown t = 0
  | Throw _ => errors_logged t = 1 ∧ alerts_shown t = 1
  end.
Proof.
  cbv zeta. rewrite onSubmit_run.
  by destruct (call callback w) as [[[[]|error] w1] t1].
Qed.

Lemma run_listeners_counts ls : ∀ e w,
  let t := trace_of (run_listeners ls (e, w)) in
  errors_logged t = alerts_shown t ∧ (errors_logged t ≤ length ls)%nat.
Proof.
  induction ls as [|l rest IH]; intros e w; [by split|].
  cbv zeta. rewrite run_listeners_cons.
  pose proof (onSubmit_counts (fn_callback l) e w) as H1. cbv zeta in H1.
  destruct (onSubmit (fn_callback l) (e, w)) as [[c1 [e1 w1]] t1].
  specialize (IH e1 w1). cbv zeta in IH.
  destruct (run_listeners rest (e1, w1)) as [[c2 [e2 w2]] t2].
  unfold trace_of in *. simpl in *.
  rewrite errors_logged_app, alerts_shown_app.
  destruct (completion_of (call (fn_callback l) w)); lia.
Qed.

Lemma run_listeners_quiet ls : ∀ e w,
  (∀ c w0, completion_of (call c w0) = Normal tt) →
  errors_logged (trace_of (run_listeners ls (e, w))) = 0.
Proof.
  induction ls as [|l rest IH]; intros e w Hquiet; [done|].
  rewrite run_listeners_cons.
  pose proof (onSubmit_counts (fn_callback l) e w) as H1. cbv zeta in H1.
  rewrite Hquiet in H1.
  destruct (onSubmit (fn_callback l) (e, w)) as [[c1 [e1 w1]] t1].
  specialize (IH e1 w1 Hquiet).
  destruct (run_listeners rest (e1, w1)) as [[c2 [e2 w2]] t2].
  unfold trace_of in *. simpl in *. rewrite errors_logged_app. lia.
Qed.

Lemma submitForm_trace form w :
  trace_of (run_listeners (listeners_of w form) (submitEvent, w))
  = (submitForm form w).2.
Proof.
  unfold submitForm, trace_of.
  by destruct (run_listeners _ (submitEvent, w)) as [[c [e w']] t].
Qed.

(** **** Propagation

    A submit event bubbles: after the listeners of the form, those of each
    element that contains it run, innermost first, on the same event
    object. The listeners of a target are the ones it has when the dispatch
    reaches it. *)
Fixpoint dispatch (path : list Element) : M (Event * World) unit :=
  match path with
  | [] => ret tt
  | target :: rest =>
      (fun '(e, w) => run_listeners (listeners_of w target) (e, w)) ;;
      dispatch rest
  end.

(** The user submits [form], which lies inside [ancestors], innermost
    first. *)
Definition submitThrough (form : Element) (ancestors : list Element) (w : World)
  : bool * World * list Effect :=
  let '(_, (e, w'), t) := dispatch (form :: ancestors) (submitEvent, w) in
  (negb (defaultPrevented e), w', t).






(** X2. In a submission the script logs as many errors as it shows alerts,
    and at most one of each per listener. *)
Theorem submitForm_errors_and_alerts (form : Element) (w : World) :
  errors_logged (submitForm form w).2 = alerts_shown (submitForm form w).2
  ∧ (errors_logged (submitForm form w).2 ≤ length (listeners_of w form))%nat.
Proof.
  rewrite <- submitForm_trace.
  apply (run_listeners_counts (listeners_of w form) submitEvent w).
Qed.

(** X3. When no callback throws, a submission logs no error and shows no
    alert, however many listeners the form has. *)
Theorem submitForm_quiet (form : Element) (w : World) :
  (∀ c w0, completion_of (call c w0) = Normal tt) →
  errors_logged (submitForm form w).2 = 0
  ∧ alerts_shown (submitForm form w).2 = 0.
Proof.
  intros Hquiet. rewrite <- submitForm_trace.
  pose proof (run_listeners_counts (listeners_of w form) submitEvent w) as [Heq _].
  pose proof (run_listeners_quiet (listeners_of w form) submitEvent w Hquiet).
  lia.
Qed.

(** X4. [safeSubmit] never throws and never logs or shows anything; it
    leaves the location, the document and the heap alone, and the listeners
    of every element but the one it finds; to that one it adds at most one
    listener, after those already there. *)
Theorem safeSubmit_frame (formId : string) (callback : Callback) (w : World) :
  let r := safeSubmit formId callback w in
  completion_of r = Normal tt
  ∧ trace_of r = []
  ∧ href (state_of r) = href w
  ∧ document (state_of r) = document w
  ∧ heap (state_of r) = heap w
  ∧ (∀ other, document w !! formId ≠ Some other →
       listeners_of (state_of r) other = listeners_of w other)
  ∧ (∀ form, document w !! formId = Some form →
       listeners_of (state_of r) form = listeners_of w form
       ∨ listeners_of (state_of r) form
         = listeners_of w form ++ [mkListener (next_fn w) callback]).
Proof.
  cbv zeta. rewrite safeSubmit_run.
  destruct (document w !! formId) as [form|] eqn:Hform.
  - unfold completion_of, state_of, trace_of, listeners_of. simpl.
    repeat split; try done.
    + intros other Hother. rewrite lookup_insert_ne; [done|congruence].
    + intros ? [= <-]. rewrite lookup_insert_eq. simpl.
      unfold add_listener. destruct (existsb _ _); auto.
  - repeat split; done.
Qed.

Lemma navigateTo_listeners url w :
  listeners (state_of (navigateTo url w)) = listeners w.
Proof. rewrite navigateTo_run. by destruct (assign_fails url w). Qed.

(** X5. Navigation does not disturb the guards: after [navigateTo], whether
    it succeeded or not, a submission of any form calls the same callbacks
    in the same order and is stopped or not as it would have been before;
    [navigateTo] itself calls no callback. *)
Theorem navigateTo_keeps_guards (url : string) (form : Element) (w : World) :
  let w' := state_of (navigateTo url w) in
  listeners_of w' form = listeners_of w form
  ∧ invocations (submitForm form w').2 = invocations (submitForm form w).2
  ∧ (submitForm form w').1.1 = (submitForm form w).1.1
  ∧ invocations (trace_of (navigateTo url w)) = [].
Proof.
  cbv zeta.
  assert (listeners_of (state_of (navigateTo url w)) form = listeners_of w form)
    as Hsame by (unfold listeners_of; by rewrite navigateTo_listeners).
  pose proof (run_listeners_spec (listeners_of w form) submitEvent w)
    as (_ & He & _ & Hi).
  pose proof (run_listeners_spec (listeners_of w form) submitEvent
                (state_of (navigateTo url w))) as (_ & He' & _ & Hi').
  rewrite <- !submitForm_trace, Hsame, Hi, Hi'.
  split; [done|]. split; [done|]. split.
  - unfold submitForm. rewrite Hsame.
    destruct (run_listeners _ (submitEvent, state_of _)) as [[c' [e' w']] t'].
    destruct (run_listeners _ (submitEvent, w)) as [[c [e w0]] t].
    unfold state_of in He, He'. simpl in *. by subst.
  - rewrite navigateTo_run. by destruct (assign_fails url w).
Qed.

Lemma perform_counts a w :
  is_run_script a = false →
  errors_logged (perform a w).2 = alerts_shown (perform a w).2.
Proof.
  destruct a as [url|formId callback|code|form|]; simpl; [| | done | |].
  - intros _. rewrite navigateTo_run. by destruct (assign_fails url w).
  - intros _. rewrite safeSubmit_run. by destruct (document w !! formId).
  - intros _. pose proof (submitForm_trace form w) as Ht.
    pose proof (run_listeners_counts (listeners_of w form) submitEvent w) as [Heq _].
    rewrite Ht in Heq.
    by destruct (submitForm form w) as [[b w'] t].
  - done.
Qed.

(** X6. In any run made of calls of the two wrappers, submissions and the
    page-load event, the script has shown exactly as many alerts as it has
    logged errors: an error is never logged silently, and the page-load
    hook logs none. *)
Theorem script_alerts_every_error (acts : list Action) (w : World) :
  Forall (fun a => is_run_script a = false) acts →
  errors_logged (perform_all acts w).2 = alerts_shown (perform_all acts w).2.
Proof.
  intros Hacts. revert w.
  induction Hacts as [|a rest Ha _ IH]; intros w; [done|].
  simpl. pose proof (perform_counts a w Ha) as H1.
  destruct (perform a w) as [w1 t1]. specialize (IH w1).
  destruct (perform_all rest w1) as [w2 t2]. simpl in *.
  rewrite errors_logged_app, alerts_shown_app. lia.
Qed.

Lemma safeSubmit_times_spec n formId callback w form :
  document w !! formId = Some form →
  fresh_for w (listeners_of w form) →
  let w' := safeSubmit_times n formId callback w in
  document w' = document w
  ∧ next_fn w' = next_fn w + n
  ∧ listeners_of w' form
    = listeners_of w form ++ fresh_listeners (next_fn w) n callback.
Proof.
  intros Hform Hfresh. cbv zeta.
  induction n as [|n (Hdoc & Hnext & Hls)].
  - simpl. unfold fresh_listeners. simpl. rewrite app_nil_r. split; [done|].
    split; [lia|done].
  - unfold safeSubmit_times in *. simpl.
    set (wn := Nat.iter n _ w) in *.
    assert (document wn !! formId = Some form) as Hform' by by rewrite Hdoc.
    rewrite safeSubmit_run, Hform'. unfold state_of, listeners_of. simpl.
    rewrite lookup_insert_eq. simpl. fold (listeners_of wn form).
    split; [done|]. split; [lia|].
    rewrite add_listener_fresh.
    + rewrite Hls, Hnext, <- app_assoc. f_equal.
      unfold fresh_listeners. by rewrite seq_S, map_app.
    + intros l' Hin. rewrite Hls in Hin. simpl.
      apply elem_of_app in Hin as [Hin|Hin].
      * specialize (Hfresh l' Hin). lia.
      * unfold fresh_listeners in Hin.
        apply list_elem_of_fmap in Hin as (i & -> & Hi).
        apply elem_of_seq in Hi. simpl. lia.
Qed.

Lemma map_seq_const {A} (a : A) (n k : nat) :
  map (fun _ => a) (seq k n) = replicate n a.
Proof. revert k. induction n as [|n IH]; intros k; [done|]. simpl. by rewrite IH. Qed.

(** X7. Registrations add up: [n] calls of [safeSubmit] with the same form
    and callback leave [n] more listeners on the form, and a submission
    then calls the callback [n] times after the callbacks that were there
    before. *)
Theorem safeSubmit_registrations_add_up
  (n : nat) (formId : string) (callback : Callback) (w : World) (form : Element) :
  document w !! formId = Some form →
  fresh_for w (listeners_of w form) →
  let w' := safeSubmit_times n formId callback w in
  length (listeners_of w' form) = length (listeners_of w form) + n
  ∧ invocations (submitForm form w').2
    = map fn_callback (listeners_of w form) ++ replicate n callback.
Proof.
  intros Hform Hfresh. cbv zeta.
  destruct (safeSubmit_times_spec n formId callback w form Hform Hfresh)
    as (_ & _ & Hls).
  pose proof (run_listeners_spec
                (listeners_of (safeSubmit_times n formId callback w) form)
                submitEvent (safeSubmit_times n formId callback w))
    as (_ & _ & _ & Hi).
  rewrite <- submitForm_trace, Hi, Hls.
  unfold fresh_listeners. rewrite length_app, length_map, length_seq.
  split; [done|]. rewrite map_app. f_equal.
  rewrite map_map. simpl. apply map_seq_const.
Qed.

End Script.

(** *** A concrete page

    A payment form guarded by a validation callback that either submits the
    data or throws; the location rejects a URL without a host. *)

Inductive Validation := Accepts | Rejects.

Definition demo_call (c : Validation) : @JS string Validation unit unit :=
  fun w =>
    match c with
    | Accepts => (Normal tt, w, [ConsoleLog "payment sent"])
    | Rejects => (Throw "card number missing", w, [])
    end.

Definition demo_assign_fails (url : string)
  (w : @World Validation unit) : option string :=
  if String.eqb url "http://" then Some "SyntaxError" else None.

Definition payment_form : Element := 7.

Definition demo_page : @World Validation unit :=
  mkWorld "/checkout" {[ "payment-form" := payment_form ]} ∅ 0 tt.

Lemma demo_call_keeps_listeners : keeps_listeners demo_call.
Proof. intros [] w; apply extends_refl. Qed.

Example navigateTo_reports :
  navigateTo demo_assign_fails "/reports" demo_page
  = (Normal tt, with_href "/reports" demo_page, []).
Proof. reflexivity. Qed.

Example navigateTo_without_host :
  navigateTo demo_assign_fails "http://" demo_page
  = (Normal tt, demo_page,
     [ConsoleError "Navigation error:" "SyntaxError";
      Alert "Navigation error. Please refresh the page."]).
Proof. reflexivity. Qed.

(** Without a listener the browser goes on and submits the form. *)
Example submit_unguarded :
  submitForm demo_call payment_form demo_page = (true, demo_page, []).
Proof. reflexivity. Qed.

Example submit_guarded :
  (submitForm demo_call payment_form
     (state_of (safeSubmit (JsValue:=string) "payment-form" Rejects demo_page))).1.1
  = false
  ∧ (submitForm demo_call payment_form
       (state_of (safeSubmit (JsValue:=string) "payment-form" Rejects demo_page))).2
    = [Invoke Rejects [];
       ConsoleError "Form submission error:" "card number missing";
       Alert "Error submitting form. Please try again."].
Proof. split; vm_compute; reflexivity. Qed.

Lemma safeSubmit_prevents_default_witness :
  (∃ w' t,
     submitForm demo_call payment_form
       (perform_all demo_assign_fails demo_call
          [SubmitForm payment_form; CallNavigateTo "/"; RunScript Accepts]
          (state_of (safeSubmit (JsValue:=string) "payment-form" Rejects demo_page))).1
     = (false, w', t))
  ∧ (∀ e w0, (state_of (onSubmit demo_call Rejects (e, w0))).1 = canceled e).
Proof.
  apply (safeSubmit_prevents_default demo_assign_fails demo_call
           "payment-form" Rejects demo_page payment_form).
  - exact demo_call_keeps_listeners.
  - reflexivity.
Defined.

Lemma onSubmit_catches_witness :
  completion_of (onSubmit demo_call Rejects (submitEvent, demo_page)) = Normal tt
  ∧ state_of (onSubmit demo_call Rejects (submitEvent, demo_page))
    = (canceled submitEvent, demo_page)
  ∧ trace_of (onSubmit demo_call Rejects (submitEvent, demo_page))
    = [Invoke Rejects [];
       ConsoleError "Form submission error:" "card number missing";
       Alert "Error submitting form. Please try again."]
  ∧ errors_logged (trace_of (onSubmit demo_call Rejects (submitEvent, demo_page))) = 1
  ∧ alerts_shown (trace_of (onSubmit demo_call Rejects (submitEvent, demo_page))) = 1
  ∧ ∀ ls e0 w0,
      completion_of (run_listeners demo_call ls (e0, w0)) = Normal tt
      ∧ errors_reported (trace_of (run_listeners demo_call ls (e0, w0))) = 0.
Proof.
  apply (onSubmit_catches demo_call Rejects submitEvent
           demo_page demo_page "card number missing" []).
  reflexivity.
Defined.

Lemma safeSubmit_missing_form_witness :
  safeSubmit (JsValue:=string) "login-form" Accepts demo_page
  = (Normal tt, demo_page, []).
Proof. apply safeSubmit_missing_form. reflexivity. Defined.

Lemma safeSubmit_not_idempotent_witness :
  ∃ l1 l2 : @Listener Validation,
    fn_callback l1 = Rejects ∧ fn_callback l2 = Rejects
    ∧ fn_id l1 ≠ fn_id l2
    ∧ listeners_of
        (state_of (safeSubmit (JsValue:=string) "payment-form" Rejects demo_page))
        payment_form
      = listeners_of demo_page payment_form ++ [l1]
    ∧ listeners_of
        (state_of
           (safeSubmit (JsValue:=string) "payment-form" Rejects
              (state_of (safeSubmit (JsValue:=string) "payment-form" Rejects demo_page))))
        payment_form
      = listeners_of demo_page payment_form ++ [l1; l2]
    ∧ ∃ w' t,
        submitForm demo_call payment_form
          (state_of
             (safeSubmit (JsValue:=string) "payment-form" Rejects
                (state_of (safeSubmit (JsValue:=string) "payment-form" Rejects demo_page))))
        = (false, w', t)
        ∧ invocations t
          = map fn_callback (listeners_of demo_page payment_form) ++ [Rejects; Rejects].
Proof.
  apply (safeSubmit_not_idempotent demo_call "payment-form" Rejects demo_page
           payment_form).
  - reflexivity.
  - intros l Hin. by apply elem_of_nil in Hin.
Defined.

(** A page whose callbacks always return. *)
Definition quiet_call (c : Validation) : @JS string Validation unit unit :=
  fun w => (Normal tt, w, [ConsoleLog "payment sent"]).

Definition guarded_page : @World Validation unit :=
  state_of (safeSubmit (JsValue:=string) "payment-form" Rejects demo_page).

Lemma submitForm_quiet_witness :
  errors_logged (submitForm quiet_call payment_form guarded_page).2 = 0
  ∧ alerts_shown (submitForm quiet_call payment_form guarded_page).2 = 0.
Proof.
  apply (submitForm_quiet quiet_call payment_form guarded_page).
  intros c w0. reflexivity.
Defined.

(** A visit: the form is guarded, submitted with a card number missing, a
    navigation fails, and the page-load event arrives. *)
Definition visit : list (@Action Validation) :=
  [CallSafeSubmit "payment-form" Rejects; SubmitForm payment_form;
   CallNavigateTo "http://"; PageLoaded].

Lemma script_alerts_every_error_witness :
  errors_logged (perform_all demo_assign_fails demo_call visit demo_page).2
  = alerts_shown (perform_all demo_assign_fails demo_call visit demo_page).2.
Proof.
  apply (script_alerts_every_error demo_assign_fails demo_call visit demo_page).
  repeat constructor.
Defined.

Example visit_logs_two_errors :
  errors_logged (perform_all demo_assign_fails demo_call visit demo_page).2 = 2.
Proof. vm_compute. reflexivity. Qed.

Lemma safeSubmit_registrations_add_up_witness :
  length (listeners_of
            (safeSubmit_times (JsValue:=string) 3 "payment-form" Accepts demo_page)
            payment_form)
  = length (listeners_of demo_page payment_form) + 3
  ∧ invocations
      (submitForm demo_call payment_form
         (safeSubmit_times (JsValue:=string) 3 "payment-form" Accepts demo_page)).2
    = map fn_callback (listeners_of demo_page payment_form) ++ replicate 3 Accepts.
Proof.
  apply (safeSubmit_registrations_add_up demo_call 3 "payment-form" Accepts
           demo_page payment_form).
  - reflexivity.
  - intros l Hin. by apply elem_of_nil in Hin.
Defined.

(** A guard registered on an element around the form stops the submission
    as well, although the form has no listener of its own. *)
Definition checkout_section : Element := 3.

Definition nested_page : @World Validation unit :=
  mkWorld "/checkout"
    {[ "payment-form" := payment_form; "checkout" := checkout_section ]} ∅ 0 tt.

Example submit_guarded_from_outside :
  listeners_of
    (state_of (safeSubmit (JsValue:=string) "checkout" Accepts nested_page))
    payment_form
  = []
  ∧ (submitThrough demo_call payment_form [checkout_section]
       (state_of (safeSubmit (JsValue:=string) "checkout" Accepts nested_page))).1.1
    = false
  ∧ (submitThrough demo_call payment_form [checkout_section]
       (state_of (safeSubmit (JsValue:=string) "checkout" Accepts nested_page))).2
    = [Invoke Accepts [ConsoleLog "payment sent"]].
Proof. do 2 (split; [vm_compute; reflexivity|]). vm_compute. reflexivity. Qed.

End MainJs.

(** ** Part II: database/schema_postgresql.sql

    The script only declares tables and inserts two rows; what an INSERT
    does with those declarations is the engine's part. It is modelled the
    way PostgreSQL carries it out: a value is first converted to the type of
    its column, defaults are filled in, then NOT NULL is checked, then the
    unique indexes, and the foreign keys last, once all rows of the
    statement are in. Text is ASCII, one byte per character.

    The rows of a statement are taken one after the other. Where more than
    one step of a statement would fail, which error the engine reports, and
    whether a sequence has moved by then, depends on how the statement
    reaches it (constants are converted before the first row is computed,
    parameters as each row is); the properties below are stated so as to
    hold either way. *)

Module Schema.

(** SQLSTATE classes an INSERT into these tables can raise. *)
Inductive sql_error :=
| string_data_right_truncation (column : string)
| numeric_value_out_of_range (column : string)
| invalid_text_representation (column : string)
| sequence_generator_limit_exceeded (sequence : string)
| not_null_violation (column : string)
| unique_violation (constraint : string)
| foreign_key_violation (constraint : string).

Definition result (A : Type) : Type := sql_error + A.

Definition bind {A B} (m : result A) (k : A → result B) : result B :=
  match m with
  | inl e => inl e
  | inr a => k a
  end.

Declare Scope sql_scope.
Notation "x ← y ; z" := (bind y (fun x => z))
  (at level 20, y at level 100, z at level 200, only parsing) : sql_scope.
Notation "' x ← y ; z" := (bind y (fun x => z))
  (at level 20, x pattern, y at level 100, z at level 200, only parsing) : sql_scope.
Notation "x ;; z" := (bind x (fun _ => z))
  (at level 100, z at level 200, only parsing, right associativity) : sql_scope.

(** What an INSERT supplies for a column: nothing (or the keyword DEFAULT),
    NULL, or a value. *)
Inductive input (A : Type) :=
| DEFAULT
| NULL
| Value (a : A).
Global Arguments DEFAULT {A}.
Global Arguments NULL {A}.
Global Arguments Value {A} a.

(** *** Column types *)

(** INTEGER: four bytes, signed. *)
Definition integer (column : string) (z : Z) : result Z :=
  if (-2147483648 <=? z)%Z && (z <=? 2147483647)%Z then inr z
  else inl (numeric_value_out_of_range column).

(** VARCHAR(n): a longer string is an error, unless the excess is all
    spaces, in which case it is cut to [n] characters. *)
Fixpoint all_spaces (s : string) : bool :=
  match s with
  | EmptyString => true
  | String c rest => Ascii.eqb c " "%char && all_spaces rest
  end.

Definition varchar (n : nat) (column : string) (s : string) : result string :=
  if (String.length s <=? n)%nat then inr s
  else if all_spaces (String.substring n (String.length s - n) s)
       then inr (String.substring 0 n s)
       else inl (string_data_right_truncation column).

(** NUMERIC values: [Finite d s] is the decimal d / 10^s printed with [s]
    fractional digits; the type also has NaN and the two infinities. *)
Inductive numeric :=
| Finite (digits : Z) (scale : nat)
| NaN
| Infinity (negative : bool).

(** Rounding to [s] fractional digits, ties away from zero. *)
Definition round_to_scale (s : nat) (digits : Z) (scale : nat) : Z :=
  if (scale <=? s)%nat then (digits * 10 ^ Z.of_nat (s - scale))%Z
  else
    let d := (10 ^ Z.of_nat (scale - s))%Z in
    (Z.sgn digits * ((Z.abs digits + d / 2) / d))%Z.

(** NUMERIC(p, s), written DECIMAL(p, s) in the script: the value is rounded
    to [s] fractional digits and must then be below 10^(p-s) in absolute
    value. NaN is kept as it is; an infinity never fits. *)
Definition decimal (p s : nat) (column : string) (v : numeric) : result numeric :=
  match v with
  | NaN => inr NaN
  | Infinity _ => inl (numeric_value_out_of_range column)
  | Finite digits scale =>
      let r := round_to_scale s digits scale in
      if (Z.abs r <? 10 ^ Z.of_nat p)%Z then inr (Finite r s)
      else inl (numeric_value_out_of_range column)
  end.

(** TIMESTAMP: microseconds since the epoch. *)
Definition timestamp : Type := Z.

(** *** JSONB *)

(** A JSONB document. Numbers are NUMERIC (digits and scale, so 85.50 keeps
    its trailing zero); the members of an object are kept sorted by key,
    shorter keys first, one member per key. *)
Inductive jsonb :=
| JNull
| JBool (b : bool)
| JNumber (digits : Z) (scale : nat)
| JString (s : string)
| JArray (items : list jsonb)
| JObject (members : list (string * jsonb)).

Definition key_lt (k1 k2 : string) : bool :=
  (String.length k1 <? String.length k2)%nat
  || ((String.length k1 =? String.length k2)%nat && String.ltb k1 k2).

(** Adding a member to an object: a later value replaces an earlier one of
    the same key. *)
Fixpoint put_member (k : string) (v : jsonb) (ms : list (string * jsonb))
  : list (string * jsonb) :=
  match ms with
  | [] => [(k, v)]
  | (k', v') :: rest =>
      if String.eqb k k' then (k, v) :: rest
      else if key_lt k k' then (k, v) :: ms
      else (k', v') :: put_member k v rest
  end.

(** The operator [->] on an object. *)
Fixpoint get_member (k : string) (ms : list (string * jsonb)) : option jsonb :=
  match ms with
  | [] => None
  | (k', v) :: rest => if String.eqb k k' then Some v else get_member k rest
  end.

Definition jsonb_field (j : jsonb) (k : string) : option jsonb :=
  match j with
  | JObject ms => get_member k ms
  | _ => None
  end.

(** **** Reading JSON text *)

Definition is_space (c : ascii) : bool :=
  Ascii.eqb c " "%char || Ascii.eqb c "009"%char || Ascii.eqb c "010"%char || Ascii.eqb c "013"%char.

Fixpoint skip_space (s : string) : string :=
  match s with
  | String c rest => if is_space c then skip_space rest else s
  | EmptyString => s
  end.

Definition digit_of (c : ascii) : option Z :=
  let n := N_of_ascii c in
  if (48 <=? n)%N && (n <=? 57)%N then Some (Z.of_N (n - 48)) else None.

(** Reads a run of digits: their value on top of [acc], how many, the rest. *)
Fixpoint read_digits (s : string) (acc : Z) (count : nat) : Z * nat * string :=
  match s with
  | String c rest =>
      match digit_of c with
      | Some d => read_digits rest (10 * acc + d)%Z (S count)
      | None => (acc, count, s)
      end
  | EmptyString => (acc, count, s)
  end.

(** How many decimal digits a positive number has. *)
Definition digit_count (n : Z) : Z :=
  Z.of_nat (Decimal.nb_digits (N.to_uint (Z.to_N n))).

(** What NUMERIC can hold of a number [mantissa / 10^shift] read with the
    exponent [exponent]: an exponent below 2^30 - 1 in absolute value, at
    most 16383 digits after the decimal point, and, unless the number is
    zero, at most 131072 digits before it. *)
Definition numeric_holds (mantissa exponent shift : Z) : bool :=
  (-1073741823 <? exponent)%Z && (exponent <? 1073741823)%Z
  && (shift <=? 16383)%Z
  && ((mantissa =? 0)%Z || (digit_count mantissa - shift <=? 131072)%Z).

(** A JSON number: [-]int[.frac][e[+-]exp], no leading zero. The result is
    the NUMERIC value the engine stores: the exponent is folded into digits
    and scale; a number NUMERIC cannot hold is an error. *)
Definition read_number (s : string) : option (jsonb * string) :=
  let '(negative, s) :=
    match s with String "-" rest => (true, rest) | _ => (false, s) end in
  match s with
  | EmptyString => None
  | String c rest =>
      d ← digit_of c;
      let '(int_part, _, s) :=
        if (d =? 0)%Z then (0%Z, 1, rest) else read_digits rest d 1 in
      '(mantissa, frac_digits, s) ←
        match s with
        | String "." rest =>
            let '(m, n, s') := read_digits rest int_part 0 in
            if (n =? 0)%nat then None else Some (m, n, s')
        | _ => Some (int_part, 0, s)
        end;
      '(exponent, s) ←
        match s with
        | String c rest =>
            if Ascii.eqb c "e"%char || Ascii.eqb c "E"%char then
              let '(minus, rest) :=
                match rest with
                | String "-" r => (true, r)
                | String "+" r => (false, r)
                | _ => (false, rest)
                end in
              let '(x, n, s') := read_digits rest 0 0 in
              if (n =? 0)%nat then None
              else Some (if minus : bool then (- x)%Z else x, s')
            else Some (0%Z, s)
        | EmptyString => Some (0%Z, s)
        end;
      let shift := (Z.of_nat frac_digits - exponent)%Z in
      if numeric_holds mantissa exponent shift then
        let digits :=
          if (mantissa =? 0)%Z then 0%Z
          else if (shift <? 0)%Z then (mantissa * 10 ^ (- shift))%Z
          else mantissa in
        let digits := if negative : bool then (- digits)%Z else digits in
        Some (JNumber digits (Z.to_nat shift), s)
      else None
  end.

Definition hex_of (c : ascii) : option N :=
  let n := N_of_ascii c in
  if (48 <=? n)%N && (n <=? 57)%N then Some (n - 48)%N
  else if (65 <=? n)%N && (n <=? 70)%N then Some (n - 55)%N
  else if (97 <=? n)%N && (n <=? 102)%N then Some (n - 87)%N
  else None.

(** The four hex digits of a [\u] escape. *)
Definition read_hex4 (s : string) : option (N * string) :=
  match s with
  | String c1 (String c2 (String c3 (String c4 rest))) =>
      h1 ← hex_of c1; h2 ← hex_of c2; h3 ← hex_of c3; h4 ← hex_of c4;
      Some (((h1 * 16 + h2) * 16 + h3) * 16 + h4, rest)%N
  | _ => None
  end.

Definition utf8 (cp : N) : list ascii :=
  let byte (n : N) := ascii_of_N n in
  let tail (n : N) := byte (128 + n mod 64)%N in
  if (cp <? 128)%N then [byte cp]
  else if (cp <? 2048)%N then [byte (192 + cp / 64)%N; tail cp]
  else if (cp <? 65536)%N then
    [byte (224 + cp / 4096)%N; tail (cp / 64)%N; tail cp]
  else
    [byte (240 + cp / 262144)%N; tail (cp / 4096)%N; tail (cp / 64)%N; tail cp].

(** The code point of a [\u] escape whose hex digits start at [s]; a high
    surrogate must be followed by the escape of a low one. U+0000 cannot be
    stored. *)
Definition read_unicode (s : string) : option (N * string) :=
  '(u, rest) ← read_hex4 s;
  if (u =? 0)%N then None
  else if (55296 <=? u)%N && (u <=? 56319)%N then
    match rest with
    | String "\" (String "u" rest') =>
        '(lo, rest'') ← read_hex4 rest';
        if (56320 <=? lo)%N && (lo <=? 57343)%N
        then Some (65536 + (u - 55296) * 1024 + (lo - 56320), rest'')%N
        else None
    | _ => None
    end
  else if (56320 <=? u)%N && (u <=? 57343)%N then None
  else Some (u, rest).

Definition string_of_bytes (l : list ascii) : string :=
  fold_right String EmptyString l.

(** The characters of a string literal, after its opening quote. *)
Fixpoint read_chars (fuel : nat) (s : string) (acc : list ascii)
  : option (string * string) :=
  match fuel with
  | 0 => None
  | S fuel =>
      match s with
      | EmptyString => None
      | String "034" rest => Some (string_of_bytes (rev acc), rest)
      | String "\" EmptyString => None
      | String "\" (String c rest) =>
          if Ascii.eqb c "u"%char then
            '(cp, rest') ← read_unicode rest;
            read_chars fuel rest' (rev (utf8 cp) ++ acc)
          else
            b ← (if Ascii.eqb c "034"%char then Some "034"%char
                 else if Ascii.eqb c "\"%char then Some "\"%char
                 else if Ascii.eqb c "/"%char then Some "/"%char
                 else if Ascii.eqb c "b"%char then Some "008"%char
                 else if Ascii.eqb c "f"%char then Some "012"%char
                 else if Ascii.eqb c "n"%char then Some "010"%char
                 else if Ascii.eqb c "r"%char then Some "013"%char
                 else if Ascii.eqb c "t"%char then Some "009"%char
                 else None);
            read_chars fuel rest (b :: acc)
      | String c rest =>
          if (N_of_ascii c <? 32)%N then None
          else read_chars fuel rest (c :: acc)
      end
  end.

Definition read_string (s : string) : option (string * string) :=
  read_chars (String.length s) s [].

(** The elements of an array after its opening bracket, [pv] reading one
    value. *)
Fixpoint read_elements (pv : string → option (jsonb * string))
  (fuel : nat) (s : string) (acc : list jsonb) : option (list jsonb * string) :=
  match fuel with
  | 0 => None
  | S fuel =>
      '(v, s) ← pv s;
      match skip_space s with
      | String "," rest => read_elements pv fuel rest (v :: acc)
      | String "]" rest => Some (rev (v :: acc), rest)
      | _ => None
      end
  end.

(** The members of an object after its opening brace. *)
Fixpoint read_members (pv : string → option (jsonb * string))
  (fuel : nat) (s : string) (acc : list (string * jsonb))
  : option (list (string * jsonb) * string) :=
  match fuel with
  | 0 => None
  | S fuel =>
      match skip_space s with
      | String "034" rest =>
          '(k, s) ← read_string rest;
          match skip_space s with
          | String ":" rest =>
              '(v, s) ← pv rest;
              match skip_space s with
              | String "," rest => read_members pv fuel rest (put_member k v acc)
              | String "}" rest => Some (put_member k v acc, rest)
              | _ => None
              end
          | _ => None
          end
      | _ => None
      end
  end.

Definition strip_prefix (p s : string) : option string :=
  if String.prefix p s
  then Some (String.substring (String.length p) (String.length s - String.length p) s)
  else None.

Fixpoint read_value (fuel : nat) (s : string) : option (jsonb * string) :=
  match fuel with
  | 0 => None
  | S fuel =>
      match skip_space s with
      | EmptyString => None
      | String "{" rest =>
          match skip_space rest with
          | String "}" rest' => Some (JObject [], rest')
          | _ =>
              '(ms, s') ← read_members (read_value fuel) fuel rest [];
              Some (JObject ms, s')
          end
      | String "[" rest =>
          match skip_space rest with
          | String "]" rest' => Some (JArray [], rest')
          | _ =>
              '(items, s') ← read_elements (read_value fuel) fuel rest [];
              Some (JArray items, s')
          end
      | String "034" rest =>
          '(str, s') ← read_string rest;
          Some (JString str, s')
      | String c rest as s1 =>
          if Ascii.eqb c "t"%char then
            s' ← strip_prefix "true" s1; Some (JBool true, s')
          else if Ascii.eqb c "f"%char then
            s' ← strip_prefix "false" s1; Some (JBool false, s')
          else if Ascii.eqb c "n"%char then
            s' ← strip_prefix "null" s1; Some (JNull, s')
          else read_number s1
      end
  end.

(** The input function of the type: the whole text must be one JSON
    value, with nothing but white space around it. *)
Definition jsonb_in (text : string) : option jsonb :=
  '(v, rest) ← read_value (S (String.length text)) text;
  match skip_space rest with
  | EmptyString => Some v
  | _ => None
  end.

(** **** Writing JSON text *)

Definition decimal_digits (n : Z) : string :=
  NilZero.string_of_uint (N.to_uint (Z.to_N n)).

Fixpoint zeros (n : nat) : string :=
  match n with
  | 0 => EmptyString
  | S n => String "0" (zeros n)
  end.

(** A NUMERIC with [scale] fractional digits, as the engine prints it. *)
Definition numeric_out (digits : Z) (scale : nat) : string :=
  let a := Z.abs digits in
  let unit := (10 ^ Z.of_nat scale)%Z in
  let sign := if (digits <? 0)%Z then "-" else EmptyString in
  let int_part := decimal_digits (a / unit) in
  match scale with
  | 0 => sign +:+ int_part
  | _ =>
      let frac := decimal_digits (a mod unit) in
      sign +:+ int_part +:+ "." +:+ zeros (scale - String.length frac) +:+ frac
  end.

Definition hex_digit (n : N) : ascii :=
  if (n <? 10)%N then ascii_of_N (48 + n) else ascii_of_N (87 + n).

Fixpoint escape (s : string) : string :=
  match s with
  | EmptyString => EmptyString
  | String c rest =>
      let n := N_of_ascii c in
      (if Ascii.eqb c "034"%char then String "\" (String "034" EmptyString)
       else if Ascii.eqb c "\"%char then "\\"
       else if Ascii.eqb c "008"%char then "\b"
       else if Ascii.eqb c "012"%char then "\f"
       else if Ascii.eqb c "010"%char then "\n"
       else if Ascii.eqb c "013"%char then "\r"
       else if Ascii.eqb c "009"%char then "\t"
       else if (n <? 32)%N then
         "\u00" +:+ String (hex_digit (n / 16)) (String (hex_digit (n mod 16)) EmptyString)
       else String c EmptyString) +:+ escape rest
  end.

Definition quoted (s : string) : string :=
  String "034" (escape s) +:+ String "034" EmptyString.

(** The output function of the type. *)
Fixpoint jsonb_out (j : jsonb) : string :=
  match j with
  | JNull => "null"
  | JBool true => "true"
  | JBool false => "false"
  | JNumber digits scale => numeric_out digits scale
  | JString s => quoted s
  | JArray items =>
      "[" +:+
      (fix go (l : list jsonb) : string :=
         match l with
         | [] => EmptyString
         | [x] => jsonb_out x
         | x :: rest => jsonb_out x +:+ ", " +:+ go rest
         end) items
      +:+ "]"
  | JObject members =>
      "{" +:+
      (fix go (l : list (string * jsonb)) : string :=
         match l with
         | [] => EmptyString
         | [(k, v)] => quoted k +:+ ": " +:+ jsonb_out v
         | (k, v) :: rest => quoted k +:+ ": " +:+ jsonb_out v +:+ ", " +:+ go rest
         end) members
      +:+ "}"
  end.

(** SQL writes a string constant between apostrophes, so JSON text inside
    it uses the double quote freely. Here the roles are swapped: [sql_text]
    turns every apostrophe of its argument into a double quote. *)
Fixpoint sql_text (s : string) : string :=
  match s with
  | EmptyString => EmptyString
  | String c rest =>
      String (if Ascii.eqb c "'"%char then "034"%char else c) (sql_text rest)
  end.

(** *** The tables

    One module per CREATE TABLE: [row] is a stored row (a NOT NULL column
    holds a value, any other an optional one), [Insert.values] what an
    INSERT supplies for each column. *)

Module Cardholders.
Record row := mkRow {
  cardholder_id : Z;
  name : string;
  card_number : string;
  account_number : string;
  behavior_profile : option jsonb;
  created_at : option timestamp;
  updated_at : option timestamp
}.
Module Insert.
Record values := VALUES {
  cardholder_id : input Z;
  name : input string;
  card_number : input string;
  account_number : input string;
  behavior_profile : input string;
  created_at : input timestamp;
  updated_at : input timestamp
}.
End Insert.
End Cardholders.

Module Transactions.
Record row := mkRow {
  transaction_id : Z;
  cardholder_id : Z;
  amount : numeric;
  merchant_id : string;
  location : string;
  date_time : timestamp;
  created_at : option timestamp
}.
Module Insert.
Record values := VALUES {
  transaction_id : input Z;
  cardholder_id : input Z;
  amount : input numeric;
  merchant_id : input string;
  location : input string;
  date_time : input timestamp;
  created_at : input timestamp
}.
End Insert.
End Transactions.

Module FraudDetectionLogs.
Record row := mkRow {
  log_id : Z;
  transaction_id : Z;
  score_rf : numeric;
  score_lr : numeric;
  final_score : numeric;
  decision : string;
  created_at : option timestamp
}.
Module Insert.
Record values := VALUES {
  log_id : input Z;
  transaction_id : input Z;
  score_rf : input numeric;
  score_lr : input numeric;
  final_score : input numeric;
  decision : input string;
  created_at : input timestamp
}.
End Insert.
End FraudDetectionLogs.

Module CaseManagement.
Record row := mkRow {
  case_id : Z;
  transaction_id : Z;
  risk_level : string;
  status : option string;
  audit_trail : option string;
  created_at : option timestamp;
  updated_at : option timestamp
}.
Module Insert.
Record values := VALUES {
  case_id : input Z;
  transaction_id : input Z;
  risk_level : input string;
  status : input string;
  audit_trail : input string;
  created_at : input timestamp;
  updated_at : input timestamp
}.
End Insert.
End CaseManagement.

(** The four tables, rows in insertion order, and the last value of the
    sequence behind each SERIAL column. *)
Record database := mkDatabase {
  cardholders : list Cardholders.row;
  transactions : list Transactions.row;
  fraud_detection_logs : list FraudDetectionLogs.row;
  case_management : list CaseManagement.row;
  cardholders_cardholder_id_seq : Z;
  transactions_transaction_id_seq : Z;
  fraud_detection_logs_log_id_seq : Z;
  case_management_case_id_seq : Z
}.

(** *** The steps of an INSERT *)

Local Open Scope sql_scope.

(** Step 1: a supplied value is converted to the type of its column. *)
Definition convert {A B} (to_type : A → result B) (i : input A) : result (input B) :=
  match i with
  | DEFAULT => inr DEFAULT
  | NULL => inr NULL
  | Value a => b ← to_type a; inr (Value b)
  end.

Definition jsonb_column (column : string) (text : string) : result jsonb :=
  match jsonb_in text with
  | Some j => inr j
  | None => inl (invalid_text_representation column)
  end.

(** Step 2: a column left out takes its DEFAULT, NULL where the script
    declares none. *)
Definition or_default {A} (default : option A) (i : input A) : option A :=
  match i with
  | DEFAULT => default
  | NULL => None
  | Value a => Some a
  end.

(** SERIAL: an INTEGER column whose default is the next value of its
    sequence. Taking that value moves the sequence, and the move outlives a
    failed statement. *)
Definition nextval (sequence : string) (last : Z) : result Z :=
  if (last <? 2147483647)%Z then inr (last + 1)%Z
  else inl (sequence_generator_limit_exceeded sequence).

Definition serial (sequence : string) (last : Z) (i : input Z)
  : result (option Z * Z) :=
  match i with
  | DEFAULT => n ← nextval sequence last; inr (Some n, n)
  | NULL => inr (None, last)
  | Value z => inr (Some z, last)
  end.

(** Step 3: NOT NULL (a PRIMARY KEY column is NOT NULL too). *)
Definition not_null {A} (column : string) (v : option A) : result A :=
  match v with
  | Some a => inr a
  | None => inl (not_null_violation column)
  end.

(** Step 4: PRIMARY KEY and UNIQUE, one index each. *)
Definition unique (constraint : string) (taken : bool) : result unit :=
  if taken then inl (unique_violation constraint) else inr tt.

(** Step 5, at the end of the statement: REFERENCES. *)
Definition references (constraint : string) (found : bool) : result unit :=
  if found then inr tt else inl (foreign_key_violation constraint).

Definition has_cardholder (id : Z) (db : database) : bool :=
  existsb (fun r => (Cardholders.cardholder_id r =? id)%Z) (cardholders db).
Definition has_card_number (number : string) (db : database) : bool :=
  existsb (fun r => String.eqb (Cardholders.card_number r) number) (cardholders db).
Definition has_transaction (id : Z) (db : database) : bool :=
  existsb (fun r => (Transactions.transaction_id r =? id)%Z) (transactions db).
Definition has_log (id : Z) (db : database) : bool :=
  existsb (fun r => (FraudDetectionLogs.log_id r =? id)%Z) (fraud_detection_logs db).
Definition has_case (id : Z) (db : database) : bool :=
  existsb (fun r => (CaseManagement.case_id r =? id)%Z) (case_management db).

(** *** INSERT INTO cardholders (script lines 2-10) *)

Definition with_cardholders_seq (last : Z) (db : database) : database :=
  {| cardholders := cardholders db;
     transactions := transactions db;
     fraud_detection_logs := fraud_detection_logs db;
     case_management := case_management db;
     cardholders_cardholder_id_seq := last;
     transactions_transaction_id_seq := transactions_transaction_id_seq db;
     fraud_detection_logs_log_id_seq := fraud_detection_logs_log_id_seq db;
     case_management_case_id_seq := case_management_case_id_seq db |}.

Definition add_cardholder (r : Cardholders.row) (db : database) : database :=
  {| cardholders := cardholders db ++ [r];
     transactions := transactions db;
     fraud_detection_logs := fraud_detection_logs db;
     case_management := case_management db;
     cardholders_cardholder_id_seq := cardholders_cardholder_id_seq db;
     transactions_transaction_id_seq := transactions_transaction_id_seq db;
     fraud_detection_logs_log_id_seq := fraud_detection_logs_log_id_seq db;
     case_management_case_id_seq := case_management_case_id_seq db |}.

(** Steps 1 to 3: the row to be stored, or the error of the first step
    that fails. The sequence is moved only once every value is converted. *)
Definition new_cardholder (now : timestamp) (v : Cardholders.Insert.values)
  (db : database) : database * result Cardholders.row :=
  match
    id ← convert (integer "cardholder_id") (Cardholders.Insert.cardholder_id v);
    name ← convert (varchar 100 "name") (Cardholders.Insert.name v);
    card ← convert (varchar 16 "card_number") (Cardholders.Insert.card_number v);
    account ← convert (varchar 20 "account_number") (Cardholders.Insert.account_number v);
    profile ← convert (jsonb_column "behavior_profile") (Cardholders.Insert.behavior_profile v);
    '(id, last) ← serial "cardholders_cardholder_id_seq" (cardholders_cardholder_id_seq db) id;
    inr (id, last, name, card, account, profile)
  with
  | inl e => (db, inl e)
  | inr (id, last, name, card, account, profile) =>
      (with_cardholders_seq last db,
       id ← not_null "cardholder_id" id;
       name ← not_null "name" (or_default None name);
       card ← not_null "card_number" (or_default None card);
       account ← not_null "account_number" (or_default None account);
       inr {| Cardholders.cardholder_id := id;
              Cardholders.name := name;
              Cardholders.card_number := card;
              Cardholders.account_number := account;
              Cardholders.behavior_profile := or_default None profile;
              Cardholders.created_at :=
                or_default (Some now) (Cardholders.Insert.created_at v);
              Cardholders.updated_at :=
                or_default (Some now) (Cardholders.Insert.updated_at v) |})
  end.

(** Step 4. *)
Definition check_cardholder (r : Cardholders.row) (db : database) : result unit :=
  unique "cardholders_pkey" (has_cardholder (Cardholders.cardholder_id r) db);;
  unique "cardholders_card_number_key" (has_card_number (Cardholders.card_number r) db).

Definition insert_cardholder (now : timestamp) (v : Cardholders.Insert.values)
  (db : database) : database * option sql_error :=
  match new_cardholder now v db with
  | (db, inl e) => (db, Some e)
  | (db, inr r) =>
      match check_cardholder r db with
      | inl e => (db, Some e)
      | inr _ => (add_cardholder r db, None)
      end
  end.

(** *** INSERT INTO transactions (script lines 13-21) *)

Definition with_transactions_seq (last : Z) (db : database) : database :=
  {| cardholders := cardholders db;
     transactions := transactions db;
     fraud_detection_logs := fraud_detection_logs db;
     case_management := case_management db;
     cardholders_cardholder_id_seq := cardholders_cardholder_id_seq db;
     transactions_transaction_id_seq := last;
     fraud_detection_logs_log_id_seq := fraud_detection_logs_log_id_seq db;
     case_management_case_id_seq := case_management_case_id_seq db |}.

Definition add_transaction (r : Transactions.row) (db : database) : database :=
  {| cardholders := cardholders db;
     transactions := transactions db ++ [r];
     fraud_detection_logs := fraud_detection_logs db;
     case_management := case_management db;
     cardholders_cardholder_id_seq := cardholders_cardholder_id_seq db;
     transactions_transaction_id_seq := transactions_transaction_id_seq db;
     fraud_detection_logs_log_id_seq := fraud_detection_logs_log_id_seq db;
     case_management_case_id_seq := case_management_case_id_seq db |}.

Definition new_transaction (now : timestamp) (v : Transactions.Insert.values)
  (db : database) : database * result Transactions.row :=
  match
    id ← convert (integer "transaction_id") (Transactions.Insert.transaction_id v);
    holder ← convert (integer "cardholder_id") (Transactions.Insert.cardholder_id v);
    amount ← convert (decimal 10 2 "amount") (Transactions.Insert.amount v);
    merchant ← convert (varchar 20 "merchant_id") (Transactions.Insert.merchant_id v);
    location ← convert (varchar 100 "location") (Transactions.Insert.location v);
    '(id, last) ← serial "transactions_transaction_id_seq" (transactions_transaction_id_seq db) id;
    inr (id, last, holder, amount, merchant, location)
  with
  | inl e => (db, inl e)
  | inr (id, last, holder, amount, merchant, location) =>
      (with_transactions_seq last db,
       id ← not_null "transaction_id" id;
       holder ← not_null "cardholder_id" (or_default None holder);
       amount ← not_null "amount" (or_default None amount);
       merchant ← not_null "merchant_id" (or_default None merchant);
       location ← not_null "location" (or_default None location);
       date_time ← not_null "date_time" (or_default None (Transactions.Insert.date_time v));
       inr {| Transactions.transaction_id := id;
              Transactions.cardholder_id := holder;
              Transactions.amount := amount;
              Transactions.merchant_id := merchant;
              Transactions.location := location;
              Transactions.date_time := date_time;
              Transactions.created_at :=
                or_default (Some now) (Transactions.Insert.created_at v) |})
  end.

Definition check_transaction (r : Transactions.row) (db : database) : result unit :=
  unique "transactions_pkey" (has_transaction (Transactions.transaction_id r) db).

Definition references_transaction (db : database) (r : Transactions.row) : result unit :=
  references "transactions_cardholder_id_fkey"
    (has_cardholder (Transactions.cardholder_id r) db).

Definition insert_transaction (now : timestamp) (v : Transactions.Insert.values)
  (db : database) : database * option sql_error :=
  match new_transaction now v db with
  | (db, inl e) => (db, Some e)
  | (db, inr r) =>
      match check_transaction r db with
      | inl e => (db, Some e)
      | inr _ => (add_transaction r db, None)
      end
  end.

(** *** INSERT INTO fraud_detection_logs (script lines 24-32) *)

Definition with_logs_seq (last : Z) (db : database) : database :=
  {| cardholders := cardholders db;
     transactions := transactions db;
     fraud_detection_logs := fraud_detection_logs db;
     case_management := case_management db;
     cardholders_cardholder_id_seq := cardholders_cardholder_id_seq db;
     transactions_transaction_id_seq := transactions_transaction_id_seq db;
     fraud_detection_logs_log_id_seq := last;
     case_management_case_id_seq := case_management_case_id_seq db |}.

Definition add_log (r : FraudDetectionLogs.row) (db : database) : database :=
  {| cardholders := cardholders db;
     transactions := transactions db;
     fraud_detection_logs := fraud_detection_logs db ++ [r];
     case_management := case_management db;
     cardholders_cardholder_id_seq := cardholders_cardholder_id_seq db;
     transactions_transaction_id_seq := transactions_transaction_id_seq db;
     fraud_detection_logs_log_id_seq := fraud_detection_logs_log_id_seq db;
     case_management_case_id_seq := case_management_case_id_seq db |}.

Definition new_log (now : timestamp) (v : FraudDetectionLogs.Insert.values)
  (db : database) : database * result FraudDetectionLogs.row :=
  match
    id ← convert (integer "log_id") (FraudDetectionLogs.Insert.log_id v);
    txn ← convert (integer "transaction_id") (FraudDetectionLogs.Insert.transaction_id v);
    rf ← convert (decimal 4 2 "score_rf") (FraudDetectionLogs.Insert.score_rf v);
    lr ← convert (decimal 4 2 "score_lr") (FraudDetectionLogs.Insert.score_lr v);
    final ← convert (decimal 4 2 "final_score") (FraudDetectionLogs.Insert.final_score v);
    decision ← convert (varchar 20 "decision") (FraudDetectionLogs.Insert.decision v);
    '(id, last) ← serial "fraud_detection_logs_log_id_seq" (fraud_detection_logs_log_id_seq db) id;
    inr (id, last, txn, rf, lr, final, decision)
  with
  | inl e => (db, inl e)
  | inr (id, last, txn, rf, lr, final, decision) =>
      (with_logs_seq last db,
       id ← not_null "log_id" id;
       txn ← not_null "transaction_id" (or_default None txn);
       rf ← not_null "score_rf" (or_default None rf);
       lr ← not_null "score_lr" (or_default None lr);
       final ← not_null "final_score" (or_default None final);
       decision ← not_null "decision" (or_default None decision);
       inr {| FraudDetectionLogs.log_id := id;
              FraudDetectionLogs.transaction_id := txn;
              FraudDetectionLogs.score_rf := rf;
              FraudDetectionLogs.score_lr := lr;
              FraudDetectionLogs.final_score := final;
              FraudDetectionLogs.decision := decision;
              FraudDetectionLogs.created_at :=
                or_default (Some now) (FraudDetectionLogs.Insert.created_at v) |})
  end.

Definition check_log (r : FraudDetectionLogs.row) (db : database) : result unit :=
  unique "fraud_detection_logs_pkey" (has_log (FraudDetectionLogs.log_id r) db).

Definition references_log (db : database) (r : FraudDetectionLogs.row) : result unit :=
  references "fraud_detection_logs_transaction_id_fkey"
    (has_transaction (FraudDetectionLogs.transaction_id r) db).

Definition insert_log (now : timestamp) (v : FraudDetectionLogs.Insert.values)
  (db : database) : database * option sql_error :=
  match new_log now v db with
  | (db, inl e) => (db, Some e)
  | (db, inr r) =>
      match check_log r db with
      | inl e => (db, Some e)
      | inr _ => (add_log r db, None)
      end
  end.

(** *** INSERT INTO case_management (script lines 35-43) *)

Definition with_cases_seq (last : Z) (db : database) : database :=
  {| cardholders := cardholders db;
     transactions := transactions db;
     fraud_detection_logs := fraud_detection_logs db;
     case_management := case_management db;
     cardholders_cardholder_id_seq := cardholders_cardholder_id_seq db;
     transactions_transaction_id_seq := transactions_transaction_id_seq db;
     fraud_detection_logs_log_id_seq := fraud_detection_logs_log_id_seq db;
     case_management_case_id_seq := last |}.

Definition add_case (r : CaseManagement.row) (db : database) : database :=
  {| cardholders := cardholders db;
     transactions := transactions db;
     fraud_detection_logs := fraud_detection_logs db;
     case_management := case_management db ++ [r];
     cardholders_cardholder_id_seq := cardholders_cardholder_id_seq db;
     transactions_transaction_id_seq := transactions_transaction_id_seq db;
     fraud_detection_logs_log_id_seq := fraud_detection_logs_log_id_seq db;
     case_management_case_id_seq := case_management_case_id_seq db |}.

Definition new_case (now : timestamp) (v : CaseManagement.Insert.values)
  (db : database) : database * result CaseManagement.row :=
  match
    id ← convert (integer "case_id") (CaseManagement.Insert.case_id v);
    txn ← convert (integer "transaction_id") (CaseManagement.Insert.transaction_id v);
    risk ← convert (varchar 10 "risk_level") (CaseManagement.Insert.risk_level v);
    status ← convert (varchar 20 "status") (CaseManagement.Insert.status v);
    '(id, last) ← serial "case_management_case_id_seq" (case_management_case_id_seq db) id;
    inr (id, last, txn, risk, status)
  with
  | inl e => (db, inl e)
  | inr (id, last, txn, risk, status) =>
      (with_cases_seq last db,
       id ← not_null "case_id" id;
       txn ← not_null "transaction_id" (or_default None txn);
       risk ← not_null "risk_level" (or_default None risk);
       inr {| CaseManagement.case_id := id;
              CaseManagement.transaction_id := txn;
              CaseManagement.risk_level := risk;
              CaseManagement.status := or_default (Some "Pending") status;
              CaseManagement.audit_trail :=
                or_default None (CaseManagement.Insert.audit_trail v);
              CaseManagement.created_at :=
                or_default (Some now) (CaseManagement.Insert.created_at v);
              CaseManagement.updated_at :=
                or_default (Some now) (CaseManagement.Insert.updated_at v) |})
  end.

Definition check_case (r : CaseManagement.row) (db : database) : result unit :=
  unique "case_management_pkey" (has_case (CaseManagement.case_id r) db).

Definition references_case (db : database) (r : CaseManagement.row) : result unit :=
  references "case_management_transaction_id_fkey"
    (has_transaction (CaseManagement.transaction_id r) db).

Definition insert_case (now : timestamp) (v : CaseManagement.Insert.values)
  (db : database) : database * option sql_error :=
  match new_case now v db with
  | (db, inl e) => (db, Some e)
  | (db, inr r) =>
      match check_case r db with
      | inl e => (db, Some e)
      | inr _ => (add_case r db, None)
      end
  end.

(** *** Statements *)

Inductive statement :=
| INSERT_INTO_cardholders (rows : list Cardholders.Insert.values)
| INSERT_INTO_transactions (rows : list Transactions.Insert.values)
| INSERT_INTO_fraud_detection_logs (rows : list FraudDetectionLogs.Insert.values)
| INSERT_INTO_case_management (rows : list CaseManagement.Insert.values).

(** The rows of a VALUES list go in one after the other, up to the first
    that fails. *)
Fixpoint insert_rows {V} (insert : V → database → database * option sql_error)
  (rows : list V) (db : database) : database * option sql_error :=
  match rows with
  | [] => (db, None)
  | v :: rest =>
      match insert v db with
      | (db, None) => insert_rows insert rest db
      | (db, Some e) => (db, Some e)
      end
  end.

Fixpoint for_each {A} (check : A → result unit) (l : list A) : result unit :=
  match l with
  | [] => inr tt
  | a :: rest => check a;; for_each check rest
  end.

(** The foreign keys of the rows a statement has added, in the order the
    rows went in. *)
Definition foreign_keys (st : statement) (before after : database) : result unit :=
  match st with
  | INSERT_INTO_cardholders _ => inr tt
  | INSERT_INTO_transactions _ =>
      for_each (references_transaction after)
        (drop (length (transactions before)) (transactions after))
  | INSERT_INTO_fraud_detection_logs _ =>
      for_each (references_log after)
        (drop (length (fraud_detection_logs before)) (fraud_detection_logs after))
  | INSERT_INTO_case_management _ =>
      for_each (references_case after)
        (drop (length (case_management before)) (case_management after))
  end.

(** A failed statement leaves no row behind; the sequences stay where the
    statement moved them. *)
Definition rollback (before after : database) : database :=
  {| cardholders := cardholders before;
     transactions := transactions before;
     fraud_detection_logs := fraud_detection_logs before;
     case_management := case_management before;
     cardholders_cardholder_id_seq := cardholders_cardholder_id_seq after;
     transactions_transaction_id_seq := transactions_transaction_id_seq after;
     fraud_detection_logs_log_id_seq := fraud_detection_logs_log_id_seq after;
     case_management_case_id_seq := case_management_case_id_seq after |}.

Definition execute (now : timestamp) (st : statement) (db : database)
  : database * option sql_error :=
  let run :=
    match st with
    | INSERT_INTO_cardholders rows => insert_rows (insert_cardholder now) rows
    | INSERT_INTO_transactions rows => insert_rows (insert_transaction now) rows
    | INSERT_INTO_fraud_detection_logs rows => insert_rows (insert_log now) rows
    | INSERT_INTO_case_management rows => insert_rows (insert_case now) rows
    end in
  match run db with
  | (db', Some e) => (rollback db db', Some e)
  | (db', None) =>
      match foreign_keys st db db' with
      | inl e => (rollback db db', Some e)
      | inr _ => (db', None)
      end
  end.

(** *** The script *)

(** The state after the four CREATE TABLE statements. *)
Definition created : database := mkDatabase [] [] [] [] 0 0 0 0.

Definition john_smith_profile : string :=
  sql_text "{'avg_transaction': 85.50, 'usual_merchants': ['retail', 'grocery']}".
Definition sarah_johnson_profile : string :=
  sql_text "{'avg_transaction': 120.75, 'usual_merchants': ['online', 'travel']}".

(** Script lines 46-48. *)
Definition sample_data : statement :=
  INSERT_INTO_cardholders
    [ Cardholders.Insert.VALUES DEFAULT
        (Value "John Smith") (Value "4111111111111111") (Value "ACC001")
        (Value john_smith_profile) DEFAULT DEFAULT;
      Cardholders.Insert.VALUES DEFAULT
        (Value "Sarah Johnson") (Value "4222222222222222") (Value "ACC002")
        (Value sarah_johnson_profile) DEFAULT DEFAULT ].

(** Running the whole script at time [now]. *)
Definition schema_postgresql (now : timestamp) : database * option sql_error :=
  execute now sample_data created.

(** The states the database can be in: after the script, and after any
    further INSERT statements (the repository has no other statement). *)
Inductive reachable : database → Prop :=
| reachable_script now : reachable (schema_postgresql now).1
| reachable_execute db now st : reachable db → reachable (execute now st db).1.

(** [SELECT behavior_profile FROM cardholders WHERE name = ...] *)
Definition select_behavior_profile (who : string) (db : database)
  : list (option jsonb) :=
  map Cardholders.behavior_profile
    (List.filter (fun r => String.eqb (Cardholders.name r) who) (cardholders db)).

(** *** What a score column holds *)

(** A finite decimal strictly between -100 and 100 with two fractional
    digits. *)
Definition within_100 (v : numeric) : Prop :=
  ∃ d, v = Finite d 2 ∧ (-100 * 10 ^ 2 < d < 100 * 10 ^ 2)%Z.

(** A value of absolute value 100 or more. *)
Definition at_least_100 (v : numeric) : Prop :=
  match v with
  | Finite d s => (100 * 10 ^ Z.of_nat s ≤ Z.abs d)%Z
  | Infinity _ => True
  | NaN => False
  end.

Definition stored_score (v : numeric) : Prop := v = NaN ∨ within_100 v.

Definition scores_stored (r : FraudDetectionLogs.row) : Prop :=
  stored_score (FraudDetectionLogs.score_rf r)
  ∧ stored_score (FraudDetectionLogs.score_lr r)
  ∧ stored_score (FraudDetectionLogs.final_score r).

Definition scores_ok (db : database) : Prop :=
  Forall scores_stored (fraud_detection_logs db).

Definition scores_of (v : FraudDetectionLogs.Insert.values) : list (input numeric) :=
  [FraudDetectionLogs.Insert.score_rf v;
   FraudDetectionLogs.Insert.score_lr v;
   FraudDetectionLogs.Insert.final_score v].

(** *** Sample statements *)

(** The database as the script leaves it. *)
Definition installed : database := (schema_postgresql 0%Z).1.

(** The documents of the two sample rows. *)
Definition john_smith : jsonb :=
  JObject
    [("avg_transaction", JNumber 8550 2);
     ("usual_merchants", JArray [JString "retail"; JString "grocery"])].

Definition sarah_johnson : jsonb :=
  JObject
    [("avg_transaction", JNumber 12075 2);
     ("usual_merchants", JArray [JString "online"; JString "travel"])].

Definition john_smith_row : Cardholders.row :=
  Cardholders.mkRow 1 "John Smith" "4111111111111111" "ACC001"
    (Some john_smith) (Some 0%Z) (Some 0%Z).

(** A second cardholder with John Smith's card number. *)
Definition repeated_card : Cardholders.Insert.values :=
  Cardholders.Insert.VALUES DEFAULT
    (Value "Eve Adams") (Value "4111111111111111") (Value "ACC003")
    NULL DEFAULT DEFAULT.

(** The row these values make up, third to ask the sequence for an id. *)
Definition repeated_card_row : Cardholders.row :=
  Cardholders.mkRow 3 "Eve Adams" "4111111111111111" "ACC003"
    None (Some 1%Z) (Some 1%Z).

(** A purchase by John Smith. *)
Definition first_purchase : Transactions.Insert.values :=
  Transactions.Insert.VALUES DEFAULT
    (Value 1%Z) (Value (Finite 1999 2)) (Value "M-1001") (Value "Lisbon")
    (Value 1700000000%Z) DEFAULT.

Definition with_purchase : database :=
  (execute 1%Z (INSERT_INTO_transactions [first_purchase]) installed).1.

(** A purchase on a card the bank does not know. *)
Definition stray_purchase : Transactions.Insert.values :=
  Transactions.Insert.VALUES DEFAULT
    (Value 99%Z) (Value (Finite 1999 2)) (Value "M-1001") (Value "Lisbon")
    (Value 1700000000%Z) DEFAULT.

Definition stray_purchase_row : Transactions.row :=
  Transactions.mkRow 1 99 (Finite 1999 2) "M-1001" "Lisbon"
    1700000000%Z (Some 1%Z).

(** The same, sent with the transaction_id of the first purchase. *)
Definition stray_purchase_again : Transactions.Insert.values :=
  Transactions.Insert.VALUES (Value 1%Z)
    (Value 99%Z) (Value (Finite 1999 2)) (Value "M-1001") (Value "Lisbon")
    (Value 1700000000%Z) DEFAULT.

(** A detection log for the first purchase whose random-forest score is not
    a number. *)
Definition undefined_score : FraudDetectionLogs.Insert.values :=
  FraudDetectionLogs.Insert.VALUES DEFAULT
    (Value 1%Z) (Value NaN) (Value (Finite 31 2)) (Value (Finite 4 1))
    (Value "review") DEFAULT.

(** A case opened for the first purchase, status left out. *)
Definition opened_case : CaseManagement.Insert.values :=
  CaseManagement.Insert.VALUES DEFAULT
    (Value 1%Z) (Value "high") DEFAULT (Value "flagged by model") DEFAULT DEFAULT.

(** *** Properties of the schema *)

(** Takes apart a hypothesis that a chain of steps came out as a row. *)
Ltac crack H :=
  repeat match type of H with
  | context [bind ?m _] =>
      let E := fresh "E" in
      destruct m as [?|?] eqn:E; simpl in H; try discriminate H
  | context [match ?p with (_, _) => _ end] => destruct p
  end.

Lemma convert_error {A B} (to_type : A → result B) (a : A) (e : sql_error) :
  to_type a = inl e → convert to_type (Value a) = inl e.
Proof. intros H. simpl. by rewrite H. Qed.

Lemma convert_inv {A B} (to_type : A → result B) (i : input A) (b : B) :
  convert to_type i = inr (Value b) → ∃ a, i = Value a ∧ to_type a = inr b.
Proof.
  destruct i as [| |a]; simpl; try discriminate.
  destruct (to_type a) as [e|b'] eqn:E; simpl; [discriminate|].
  intros [= <-]. by exists a.
Qed.

Lemma not_null_inv {A} (column : string) (i : input A) (a : A) :
  not_null column (or_default None i) = inr a → i = Value a.
Proof. destruct i; simpl; congruence. Qed.

Lemma integer_inv (column : string) (z z' : Z) :
  integer column z = inr z' → z' = z.
Proof. unfold integer. case_match; congruence. Qed.

Lemma has_card_number_spec number db :
  has_card_number number db = true
  ↔ ∃ c, c ∈ cardholders db ∧ Cardholders.card_number c = number.
Proof.
  unfold has_card_number. rewrite existsb_exists. split.
  - intros (c & Hin & Heq). exists c.
    by rewrite list_elem_of_In, <- String.eqb_eq.
  - intros (c & Hin & Heq). exists c.
    by rewrite <- list_elem_of_In, String.eqb_eq.
Qed.

Lemma has_cardholder_spec id db :
  has_cardholder id db = true
  ↔ ∃ c, c ∈ cardholders db ∧ Cardholders.cardholder_id c = id.
Proof.
  unfold has_cardholder. rewrite existsb_exists. split.
  - intros (c & Hin & Heq). exists c.
    by rewrite list_elem_of_In, <- Z.eqb_eq.
  - intros (c & Hin & Heq). exists c.
    by rewrite <- list_elem_of_In, Z.eqb_eq.
Qed.

Example decimal_4_2_fits :
  decimal 4 2 "score_rf" (Finite 99994 3) = inr (Finite 9999 2).
Proof. reflexivity. Qed.

Example decimal_4_2_rounds_to_100 :
  decimal 4 2 "score_rf" (Finite 99995 3)
  = inl (numeric_value_out_of_range "score_rf").
Proof. reflexivity. Qed.

Example varchar_cuts_spaces :
  varchar 16 "card_number" "4111111111111111  " = inr "4111111111111111".
Proof. reflexivity. Qed.

Example varchar_too_long :
  varchar 16 "card_number" "41111111111111112"
  = inl (string_data_right_truncation "card_number").
Proof. reflexivity. Qed.

Example jsonb_in_sorts_keys :
  jsonb_in (sql_text "{'bb': 1, 'a': [true, null], 'bb': 2.50}")
  = Some (JObject [("a", JArray [JBool true; JNull]); ("bb", JNumber 250 2)]).
Proof. vm_compute. reflexivity. Qed.

Example jsonb_in_rejects :
  jsonb_in (sql_text "{'avg_transaction': 085.50}") = None.
Proof. vm_compute. reflexivity. Qed.

(** The limits of NUMERIC apply to the numbers of a document. *)
Example jsonb_in_numeric_limits :
  jsonb_in "1e-16384" = None
  ∧ jsonb_in "1e-16383" = Some (JNumber 1 (Z.to_nat 16383))
  ∧ jsonb_in "1e131072" = None
  ∧ jsonb_in "12.5e3" = Some (JNumber 12500 0)
  ∧ jsonb_in "0e131072" = Some (JNumber 0 0)
  ∧ jsonb_in "0e1073741823" = None.
Proof. do 5 (split; [vm_compute; reflexivity|]). vm_compute. reflexivity. Qed.

(** A statement that fails leaves every table as it was. *)
Lemma execute_failed now st db e :
  (execute now st db).2 = Some e →
  cardholders (execute now st db).1 = cardholders db
  ∧ transactions (execute now st db).1 = transactions db
  ∧ fraud_detection_logs (execute now st db).1 = fraud_detection_logs db
  ∧ case_management (execute now st db).1 = case_management db.
Proof.
  unfold execute.
  destruct (match st with
            | INSERT_INTO_cardholders rows => insert_rows (insert_cardholder now) rows
            | INSERT_INTO_transactions rows => insert_rows (insert_transaction now) rows
            | INSERT_INTO_fraud_detection_logs rows => insert_rows (insert_log now) rows
            | INSERT_INTO_case_management rows => insert_rows (insert_case now) rows
            end db) as [db' [e'|]]; [done|].
  by destruct (foreign_keys st db db').
Qed.

(** **** Cardholders *)

Lemma new_cardholder_inv now v db db1 r :
  new_cardholder now v db = (db1, inr r) →
  cardholders db1 = cardholders db
  ∧ convert (varchar 16 "card_number") (Cardholders.Insert.card_number v)
    = inr (Value (Cardholders.card_number r)).
Proof.
  unfold new_cardholder. intros H. crack H.
  injection H as <- <-. simpl. split; [done|].
  by apply not_null_inv in E7 as ->.
Qed.

Lemma execute_one_cardholder now v db :
  execute now (INSERT_INTO_cardholders [v]) db =
    match insert_cardholder now v db with
    | (db', Some e) => (rollback db db', Some e)
    | (db', None) => (db', None)
    end.
Proof.
  unfold execute. simpl.
  by destruct (insert_cardholder now v db) as [db' [e|]].
Qed.

(** Whatever else is supplied with it, a card number that is already in the
    table never gets in a second time. *)
Lemma duplicate_card_number_never_inserted now v db number stored :
  Cardholders.Insert.card_number v = Value number →
  varchar 16 "card_number" number = inr stored →
  has_card_number stored db = true →
  is_Some (execute now (INSERT_INTO_cardholders [v]) db).2
  ∧ cardholders (execute now (INSERT_INTO_cardholders [v]) db).1 = cardholders db.
Proof.
  intros Hcard Hfit Hdup.
  assert (is_Some (execute now (INSERT_INTO_cardholders [v]) db).2) as Hfail.
  { rewrite execute_one_cardholder. unfold insert_cardholder.
    destruct (new_cardholder now v db) as [db1 [e|r]] eqn:Hnew; simpl; [by eexists|].
    apply new_cardholder_inv in Hnew as [Hsame Hconv].
    rewrite Hcard in Hconv. simpl in Hconv. rewrite Hfit in Hconv.
    injection Hconv as Hconv.
    unfold check_cardholder, has_cardholder, has_card_number in *.
    rewrite Hsame, <- Hconv, Hdup.
    match goal with
    | |- context [unique "cardholders_pkey" ?taken] => destruct taken
    end; simpl; by eexists. }
  split; [done|]. destruct Hfail as [e He]. by apply (execute_failed _ _ _ _ He).
Qed.

(** C5. An INSERT whose values make up the row [r] (each converted to the
    type of its column, defaults filled in, no NOT NULL column empty), with
    [r]'s card number equal to that of a row already in the table, fails
    with a uniqueness violation and leaves the table as it was. *)
Theorem duplicate_card_number_rejected
  (now : timestamp) (v : Cardholders.Insert.values) (db db1 : database)
  (r existing : Cardholders.row) :
  new_cardholder now v db = (db1, inr r) →
  existing ∈ cardholders db →
  Cardholders.card_number r = Cardholders.card_number existing →
  let out := execute now (INSERT_INTO_cardholders [v]) db in
  out.2 = Some (unique_violation
                  (if has_cardholder (Cardholders.cardholder_id r) db
                   then "cardholders_pkey"
                   else "cardholders_card_number_key"))
  ∧ cardholders out.1 = cardholders db.
Proof.
  intros Hnew Hin Hsame. cbv zeta.
  assert (has_card_number (Cardholders.card_number r) db = true) as Hdup.
  { apply has_card_number_spec. by exists existing. }
  rewrite execute_one_cardholder. unfold insert_cardholder. rewrite Hnew.
  apply new_cardholder_inv in Hnew as [Htable _].
  unfold check_cardholder, has_cardholder, has_card_number in *.
  rewrite Htable, Hdup.
  match goal with
  | |- context [unique "cardholders_pkey" ?taken] => destruct taken
  end; simpl; done.
Qed.

Lemma duplicate_card_number_rejected_witness :
  (execute 1%Z (INSERT_INTO_cardholders [repeated_card]) installed).2
  = Some (unique_violation
            (if has_cardholder (Cardholders.cardholder_id repeated_card_row) installed
             then "cardholders_pkey"
             else "cardholders_card_number_key"))
  ∧ cardholders (execute 1%Z (INSERT_INTO_cardholders [repeated_card]) installed).1
    = cardholders installed.
Proof.
  apply (duplicate_card_number_rejected 1%Z repeated_card installed
           (with_cardholders_seq 3 installed) repeated_card_row john_smith_row).
  - vm_compute. reflexivity.
  - vm_compute. constructor.
  - reflexivity.
Defined.

(** In this example the index that reports is the one on card_number. *)
Lemma repeated_card_error :
  (execute 1%Z (INSERT_INTO_cardholders [repeated_card]) installed).2
  = Some (unique_violation "cardholders_card_number_key").
Proof. vm_compute. reflexivity. Qed.

(** C7. The script runs without error, and reading the profiles of the two
    sample cardholders back gives the documents the script wrote: the same
    text, member for member, with 85.50 keeping its two decimals. *)
Theorem sample_profiles_round_trip (now : timestamp) :
  let db := (schema_postgresql now).1 in
  (schema_postgresql now).2 = None
  ∧ select_behavior_profile "John Smith" db = [Some john_smith]
  ∧ select_behavior_profile "Sarah Johnson" db = [Some sarah_johnson]
  ∧ jsonb_in john_smith_profile = Some john_smith
  ∧ jsonb_in sarah_johnson_profile = Some sarah_johnson
  ∧ jsonb_out john_smith = john_smith_profile
  ∧ jsonb_out sarah_johnson = sarah_johnson_profile
  ∧ jsonb_field john_smith "avg_transaction" = Some (JNumber 8550 2)
  ∧ numeric_out 8550 2 = "85.50"
  ∧ jsonb_field john_smith "usual_merchants"
    = Some (JArray [JString "retail"; JString "grocery"]).
Proof. cbv zeta. repeat split; vm_compute; reflexivity. Qed.

(** **** Transactions *)

Lemma new_transaction_inv now v db db1 r :
  new_transaction now v db = (db1, inr r) →
  cardholders db1 = cardholders db
  ∧ transactions db1 = transactions db
  ∧ Transactions.Insert.cardholder_id v = Value (Transactions.cardholder_id r).
Proof.
  unfold new_transaction. intros H. crack H.
  injection H as <- <-. simpl. split; [done|]. split; [done|].
  apply not_null_inv in E7 as ->.
  apply convert_inv in E0 as (a & -> & Ha).
  by apply integer_inv in Ha as ->.
Qed.

Lemma execute_one_transaction now v db :
  execute now (INSERT_INTO_transactions [v]) db =
    match insert_transaction now v db with
    | (db', Some e) => (rollback db db', Some e)
    | (db', None) =>
        match for_each (references_transaction db')
                (drop (length (transactions db)) (transactions db')) with
        | inl e => (rollback db db', Some e)
        | inr _ => (db', None)
        end
    end.
Proof.
  unfold execute. simpl.
  by destruct (insert_transaction now v db) as [db' [e|]].
Qed.

(** Whatever else is supplied with it, a cardholder_id that is not in
    cardholders never gets into transactions. *)
Lemma unknown_cardholder_never_inserted now v db :
  (∀ id, Transactions.Insert.cardholder_id v = Value id →
         has_cardholder id db = false) →
  is_Some (execute now (INSERT_INTO_transactions [v]) db).2
  ∧ transactions (execute now (INSERT_INTO_transactions [v]) db).1 = transactions db.
Proof.
  intros Hunknown.
  assert (is_Some (execute now (INSERT_INTO_transactions [v]) db).2) as Hfail.
  { rewrite execute_one_transaction. unfold insert_transaction.
    destruct (new_transaction now v db) as [db1 [e|r]] eqn:Hnew; simpl; [by eexists|].
    destruct (new_transaction_inv _ _ _ _ _ Hnew) as (Hholders & Hsame & Hid).
    specialize (Hunknown _ Hid).
    destruct (check_transaction r db1); simpl; [by eexists|].
    rewrite Hsame, drop_app_length. simpl.
    unfold references_transaction, has_cardholder in *. simpl.
    rewrite Hholders, Hunknown. simpl. by eexists. }
  split; [done|]. destruct Hfail as [e He]. by apply (execute_failed _ _ _ _ He).
Qed.

(** C6, as amended. An INSERT whose values make up the row [r], with [r]'s
    cardholder_id the id of no cardholder, fails and leaves the table as it
    was. The error is a foreign-key violation, unless [r]'s transaction_id
    is already in the table: the primary key is checked first and reports a
    uniqueness violation. *)
Theorem unknown_cardholder_rejected
  (now : timestamp) (v : Transactions.Insert.values) (db db1 : database)
  (r : Transactions.row) :
  new_transaction now v db = (db1, inr r) →
  (∀ c, c ∈ cardholders db →
        Cardholders.cardholder_id c ≠ Transactions.cardholder_id r) →
  let out := execute now (INSERT_INTO_transactions [v]) db in
  out.2 = Some (if has_transaction (Transactions.transaction_id r) db
                then unique_violation "transactions_pkey"
                else foreign_key_violation "transactions_cardholder_id_fkey")
  ∧ transactions out.1 = transactions db.
Proof.
  intros Hnew Hunknown. cbv zeta.
  assert (has_cardholder (Transactions.cardholder_id r) db = false) as Hnone.
  { destruct (has_cardholder _ db) eqn:Hfound; [|done].
    apply has_cardholder_spec in Hfound as (c & Hin & Heq).
    by destruct (Hunknown c Hin). }
  rewrite execute_one_transaction. unfold insert_transaction. rewrite Hnew.
  destruct (new_transaction_inv _ _ _ _ _ Hnew) as (Hholders & Hsame & _).
  unfold check_transaction, has_transaction in *. rewrite Hsame.
  destruct (existsb _ (transactions db)); simpl; [done|].
  rewrite Hsame, drop_app_length. simpl.
  unfold references_transaction, has_cardholder in *. simpl.
  by rewrite Hholders, Hnone.
Qed.

Lemma unknown_cardholder_rejected_witness :
  (execute 1%Z (INSERT_INTO_transactions [stray_purchase]) installed).2
  = Some (if has_transaction (Transactions.transaction_id stray_purchase_row) installed
          then unique_violation "transactions_pkey"
          else foreign_key_violation "transactions_cardholder_id_fkey")
  ∧ transactions (execute 1%Z (INSERT_INTO_transactions [stray_purchase]) installed).1
    = transactions installed.
Proof.
  apply (unknown_cardholder_rejected 1%Z stray_purchase installed
           (with_transactions_seq 1 installed) stray_purchase_row).
  - vm_compute. reflexivity.
  - intros c Hin. vm_compute in Hin.
    apply elem_of_cons in Hin as [->|Hin]; [discriminate|].
    apply elem_of_cons in Hin as [->|Hin]; [discriminate|].
    by apply elem_of_nil in Hin.
Defined.

(** The stray purchase, sent again under the id of a transaction that is
    already there: a complete row, no cardholder 99, and the error is the
    uniqueness violation of the primary key. *)
Lemma unknown_cardholder_known_transaction :
  reachable with_purchase
  ∧ has_cardholder 99%Z with_purchase = false
  ∧ (∃ r, (new_transaction 2%Z stray_purchase_again with_purchase).2 = inr r
          ∧ Transactions.cardholder_id r = 99%Z)
  ∧ (execute 2%Z (INSERT_INTO_transactions [stray_purchase_again]) with_purchase).2
    = Some (unique_violation "transactions_pkey")
  ∧ ∀ c, unique_violation "transactions_pkey" ≠ foreign_key_violation c.
Proof.
  split; [repeat constructor|].
  split; [vm_compute; reflexivity|].
  split; [eexists; split; vm_compute; reflexivity|].
  split; [vm_compute; reflexivity|].
  intros c; discriminate.
Qed.

(** **** Case management *)


Lemma execute_one_case now v db :
  execute now (INSERT_INTO_case_management [v]) db =
    match insert_case now v db with
    | (db', Some e) => (rollback db db', Some e)
    | (db', None) =>
        match for_each (references_case db')
                (drop (length (case_management db)) (case_management db')) with
        | inl e => (rollback db db', Some e)
        | inr _ => (db', None)
        end
    end.
Proof.
  unfold execute. simpl.
  by destruct (insert_case now v db) as [db' [e|]].
Qed.

(** **** Values an INSERT can carry *)

(** Text within the scope of this model: ASCII characters, none of them
    NUL. *)
Fixpoint is_text (s : string) : bool :=
  match s with
  | EmptyString => true
  | String c rest =>
      (0 <? N_of_ascii c)%N && (N_of_ascii c <? 128)%N && is_text rest
  end.

(** Text of at most [n] characters. *)
Definition text_within (n : Z) (s : string) : Prop :=
  is_text s = true ∧ (Z.of_nat (String.length s) ≤ n)%Z.






Lemma varchar_within n column s :
  text_within (Z.of_nat n) s → varchar n column s = inr s.
Proof.
  intros [_ Hlen]. unfold varchar.
  assert ((String.length s <=? n)%nat = true) as -> by (apply Nat.leb_le; lia).
  done.
Qed.





(** The case of the sample is indeed stored. *)
Lemma opened_case_is_stored :
  (execute 2%Z (INSERT_INTO_case_management [opened_case]) with_purchase).2 = None
  ∧ map CaseManagement.status
      (case_management
         (execute 2%Z (INSERT_INTO_case_management [opened_case]) with_purchase).1)
    = [Some "Pending"].
Proof. split; vm_compute; reflexivity. Qed.

(** **** Fraud-detection scores *)

Lemma decimal_4_2_stored column v v' :
  decimal 4 2 column v = inr v' → stored_score v'.
Proof.
  destruct v as [d s| |neg]; simpl; [|intros [= <-]; by left|discriminate].
  replace (10 ^ Z.of_nat 4)%Z with 10000%Z by reflexivity.
  destruct (Z.abs (round_to_scale 2 d s) <? 10000)%Z eqn:Hlt; [|discriminate].
  intros [= <-]. right. exists (round_to_scale 2 d s). split; [done|].
  apply Z.ltb_lt in Hlt. lia.
Qed.

(** A value of absolute value 100 or more does not fit, however it is
    rounded. *)
Lemma decimal_4_2_overflow column v :
  at_least_100 v →
  decimal 4 2 column v = inl (numeric_value_out_of_range column).
Proof.
  destruct v as [d s| |neg]; simpl; [|done|done].
  intros Hbig.
  replace (10 ^ Z.of_nat 4)%Z with 10000%Z by reflexivity.
  assert (10000 ≤ Z.abs (round_to_scale 2 d s))%Z as Hr; [|
    destruct (Z.abs (round_to_scale 2 d s) <? 10000)%Z eqn:Hlt; [|done];
    apply Z.ltb_lt in Hlt; lia].
  assert (0 < 10 ^ Z.of_nat s)%Z as Hpos by (apply Z.pow_pos_nonneg; lia).
  unfold round_to_scale.
  destruct (s <=? 2)%nat eqn:Hs.
  - apply Nat.leb_le in Hs.
    rewrite Z.abs_mul, (Z.abs_eq (10 ^ _)) by (apply Z.pow_nonneg; lia).
    assert (10 ^ Z.of_nat s * 10 ^ Z.of_nat (2 - s) = 100)%Z as Hsplit.
    { rewrite <- Z.pow_add_r by lia.
      replace (Z.of_nat s + Z.of_nat (2 - s))%Z with 2%Z by lia. done. }
    assert (0 < 10 ^ Z.of_nat (2 - s))%Z by (apply Z.pow_pos_nonneg; lia).
    nia.
  - apply Nat.leb_gt in Hs.
    set (unit := (10 ^ Z.of_nat (s - 2))%Z).
    assert (0 < unit)%Z as Hunit by (apply Z.pow_pos_nonneg; lia).
    assert (10 ^ Z.of_nat s = 100 * unit)%Z as Hsplit.
    { unfold unit. replace (Z.of_nat s) with (2 + Z.of_nat (s - 2))%Z by lia.
      rewrite Z.pow_add_r by lia. done. }
    assert (10000 ≤ (Z.abs d + unit / 2) / unit)%Z as Hq.
    { apply Z.div_le_lower_bound; [done|].
      assert (0 ≤ unit / 2)%Z by (apply Z.div_pos; lia). nia. }
    rewrite Z.abs_mul, (Z.abs_eq (_ / _)) by lia.
    assert (Z.abs (Z.sgn d) = 1)%Z as -> by lia. lia.
Qed.

Lemma new_log_inv now v db db1 r :
  new_log now v db = (db1, inr r) →
  fraud_detection_logs db1 = fraud_detection_logs db ∧ scores_stored r.
Proof.
  unfold new_log. intros H. crack H.
  injection H as <- <-. simpl. split; [done|].
  apply not_null_inv in E8 as ->, E9 as ->, E10 as ->.
  apply convert_inv in E1 as (? & _ & ?), E2 as (? & _ & ?), E3 as (? & _ & ?).
  unfold scores_stored. simpl.
  repeat split; eapply decimal_4_2_stored; eassumption.
Qed.

(** An INSERT with a score too large stops at the conversion of a column. *)
Lemma new_log_overflow now v db x :
  Value x ∈ scores_of v → at_least_100 x →
  ∃ e, (new_log now v db).2 = inl e.
Proof.
  intros Hin Hbig. unfold new_log, scores_of in *.
  pose proof (decimal_4_2_overflow "score_rf" x Hbig) as Hrf.
  pose proof (decimal_4_2_overflow "score_lr" x Hbig) as Hlr.
  pose proof (decimal_4_2_overflow "final_score" x Hbig) as Hfinal.
  destruct (convert (integer "log_id") _); simpl; [by eexists|].
  destruct (convert (integer "transaction_id") _); simpl; [by eexists|].
  apply elem_of_cons in Hin as [Hin|Hin];
    [rewrite <- Hin, (convert_error _ _ _ Hrf); simpl; by eexists|].
  destruct (convert (decimal 4 2 "score_rf") _); simpl; [by eexists|].
  apply elem_of_cons in Hin as [Hin|Hin];
    [rewrite <- Hin, (convert_error _ _ _ Hlr); simpl; by eexists|].
  destruct (convert (decimal 4 2 "score_lr") _); simpl; [by eexists|].
  apply list_elem_of_singleton in Hin.
  rewrite <- Hin, (convert_error _ _ _ Hfinal); simpl; by eexists.
Qed.

Lemma insert_log_scores now v db :
  scores_ok db → scores_ok (insert_log now v db).1.
Proof.
  unfold scores_ok, insert_log. intros Hok.
  destruct (new_log now v db) as [db1 [e|r]] eqn:Hnew.
  - simpl.
    assert (fraud_detection_logs db1 = fraud_detection_logs db) as ->; [|done].
    unfold new_log in Hnew. repeat case_match; simplify_eq; done.
  - apply new_log_inv in Hnew as [Hsame Hr].
    destruct (check_log r db1); simpl; rewrite ?Hsame; [done|].
    apply Forall_app. split; [done|]. by apply Forall_singleton.
Qed.

Lemma insert_cardholder_logs now v db :
  fraud_detection_logs (insert_cardholder now v db).1 = fraud_detection_logs db.
Proof.
  unfold insert_cardholder, new_cardholder.
  repeat case_match; simplify_eq; done.
Qed.

Lemma insert_transaction_logs now v db :
  fraud_detection_logs (insert_transaction now v db).1 = fraud_detection_logs db.
Proof.
  unfold insert_transaction, new_transaction.
  repeat case_match; simplify_eq; done.
Qed.

Lemma insert_case_logs now v db :
  fraud_detection_logs (insert_case now v db).1 = fraud_detection_logs db.
Proof.
  unfold insert_case, new_case.
  repeat case_match; simplify_eq; done.
Qed.

(** A row that cannot go in, whatever the state, stops the statement. *)
Lemma insert_rows_stops {V}
  (insert : V → database → database * option sql_error) (v : V) :
  (∀ db, is_Some (insert v db).2) →
  ∀ rows db, v ∈ rows → is_Some (insert_rows insert rows db).2.
Proof.
  intros Hfails. induction rows as [|a rest IH]; intros db Hin.
  - by apply elem_of_nil in Hin.
  - simpl. destruct (insert a db) as [db1 [e|]] eqn:Ha; [by eexists|].
    apply elem_of_cons in Hin as [->|Hin]; [|by apply IH].
    specialize (Hfails db). rewrite Ha in Hfails. by destruct Hfails.
Qed.

Lemma insert_rows_preserves {V} (Q : database → Prop)
  (insert : V → database → database * option sql_error) :
  (∀ v db, Q db → Q (insert v db).1) →
  ∀ rows db, Q db → Q (insert_rows insert rows db).1.
Proof.
  intros Hstep. induction rows as [|v rest IH]; intros db HQ; [done|].
  simpl. specialize (Hstep v db HQ).
  destruct (insert v db) as [db1 [e|]]; [done|]. by apply IH.
Qed.

Lemma execute_scores now st db : scores_ok db → scores_ok (execute now st db).1.
Proof.
  intros Hok.
  assert (∀ run : database → database * option sql_error,
            scores_ok (run db).1 →
            scores_ok
              (match run db with
               | (db', Some e) => (rollback db db', Some e)
               | (db', None) =>
                   match foreign_keys st db db' with
                   | inl e => (rollback db db', Some e)
                   | inr _ => (db', None)
                   end
               end).1) as Hwrap.
  { intros run Hrun. destruct (run db) as [db' [e|]]; [done|].
    by destruct (foreign_keys st db db'). }
  unfold execute. apply Hwrap.
  destruct st as [rows|rows|rows|rows];
    apply insert_rows_preserves; try done; unfold scores_ok; intros v db0 H0.
  - by rewrite insert_cardholder_logs.
  - by rewrite insert_transaction_logs.
  - by apply insert_log_scores.
  - by rewrite insert_case_logs.
Qed.

Lemma reachable_scores db : reachable db → scores_ok db.
Proof.
  induction 1 as [now|db now st _ IH].
  - apply Forall_nil_2.
  - by apply execute_scores.
Qed.

(** C10, as amended. An INSERT with a score of absolute value 100 or more
    in any of its rows is rejected and adds nothing; and in every state the
    database can reach, each stored score is NaN or a decimal with two
    fractional digits strictly between -100 and 100. *)
Theorem scores_fit_decimal_4_2 :
  (∀ now rows v db x,
     v ∈ rows → Value x ∈ scores_of v → at_least_100 x →
     let out := execute now (INSERT_INTO_fraud_detection_logs rows) db in
     is_Some out.2 ∧ fraud_detection_logs out.1 = fraud_detection_logs db)
  ∧ (∀ db r,
       reachable db → r ∈ fraud_detection_logs db →
       stored_score (FraudDetectionLogs.score_rf r)
       ∧ stored_score (FraudDetectionLogs.score_lr r)
       ∧ stored_score (FraudDetectionLogs.final_score r)).
Proof.
  split.
  - intros now rows v db x Hrow Hin Hbig. cbv zeta.
    assert (is_Some (execute now (INSERT_INTO_fraud_detection_logs rows) db).2)
      as [e He].
    { assert (is_Some (insert_rows (insert_log now) rows db).2) as [e He].
      { apply (insert_rows_stops _ v); [|done].
        intros db0. destruct (new_log_overflow now v db0 x Hin Hbig) as [e He].
        unfold insert_log.
        destruct (new_log now v db0) as [db1 [e'|r]]; simpl in *; [by eexists|done]. }
      unfold execute.
      destruct (insert_rows (insert_log now) rows db) as [db' [e0|]];
        simpl in *; [by eexists|done]. }
    split; [by eexists|]. by apply (execute_failed _ _ _ _ He).
  - intros db r Hreach Hin.
    apply reachable_scores in Hreach.
    by apply (proj1 (Forall_forall _ _) Hreach r Hin).
Qed.

(** A log whose score is NaN is stored like any other. *)
Lemma nan_score_is_stored :
  reachable (execute 2%Z (INSERT_INTO_fraud_detection_logs [undefined_score]) with_purchase).1
  ∧ (execute 2%Z (INSERT_INTO_fraud_detection_logs [undefined_score]) with_purchase).2 = None
  ∧ map FraudDetectionLogs.score_rf
      (fraud_detection_logs
         (execute 2%Z (INSERT_INTO_fraud_detection_logs [undefined_score]) with_purchase).1)
    = [NaN]
  ∧ ¬ within_100 NaN.
Proof.
  split; [repeat constructor|].
  split; [vm_compute; reflexivity|].
  split; [vm_compute; reflexivity|].
  intros (d & [=] & _).
Qed.

(** *** The shape of a statement's result *)

(** How many rows a statement brings, and how many the database holds. *)
Definition statement_rows (st : statement) : nat :=
  match st with
  | INSERT_INTO_cardholders rows => length rows
  | INSERT_INTO_transactions rows => length rows
  | INSERT_INTO_fraud_detection_logs rows => length rows
  | INSERT_INTO_case_management rows => length rows
  end.

Definition row_count (db : database) : nat :=
  length (cardholders db) + length (transactions db)
  + length (fraud_detection_logs db) + length (case_management db).

(** Every sequence of [db'] is at or past where it is in [db]. *)
Definition sequences_le (db db' : database) : Prop :=
  (cardholders_cardholder_id_seq db ≤ cardholders_cardholder_id_seq db')%Z
  ∧ (transactions_transaction_id_seq db ≤ transactions_transaction_id_seq db')%Z
  ∧ (fraud_detection_logs_log_id_seq db ≤ fraud_detection_logs_log_id_seq db')%Z
  ∧ (case_management_case_id_seq db ≤ case_management_case_id_seq db')%Z.

Lemma serial_inv sequence last i o last' :
  serial sequence last i = inr (o, last') →
  (last ≤ last')%Z ∧ (i = DEFAULT → last' = (last + 1)%Z ∧ o = Some (last + 1)%Z).
Proof.
  destruct i as [| |z]; simpl.
  - unfold nextval. destruct (last <? 2147483647)%Z; simpl; [|discriminate].
    intros [= <- <-]. split; [lia|done].
  - intros [= <- <-]. split; [lia|discriminate].
  - intros [= <- <-]. split; [lia|discriminate].
Qed.

Lemma for_each_inr {A} (check : A → result unit) (l : list A) :
  for_each check l = inr tt ↔ Forall (fun a => check a = inr tt) l.
Proof.
  induction l as [|a rest IH]; simpl; [by split|].
  destruct (check a) as [e|[]] eqn:Ha; simpl.
  - split; [discriminate|]. intros H. apply Forall_cons in H as [H _]. congruence.
  - rewrite IH. split; [by constructor|]. by intros [_ H]%Forall_cons.
Qed.

Lemma has_transaction_spec id db :
  has_transaction id db = true
  ↔ ∃ t, t ∈ transactions db ∧ Transactions.transaction_id t = id.
Proof.
  unfold has_transaction. rewrite existsb_exists. split.
  - intros (c & Hin & Heq). exists c.
    by rewrite list_elem_of_In, <- Z.eqb_eq.
  - intros (c & Hin & Heq). exists c.
    by rewrite <- list_elem_of_In, Z.eqb_eq.
Qed.

(** **** One row *)

Lemma new_cardholder_frame now v db :
  cardholders (new_cardholder now v db).1 = cardholders db
  ∧ transactions (new_cardholder now v db).1 = transactions db
  ∧ fraud_detection_logs (new_cardholder now v db).1 = fraud_detection_logs db
  ∧ case_management (new_cardholder now v db).1 = case_management db.
Proof. unfold new_cardholder. repeat case_match; simplify_eq; done. Qed.

Lemma new_transaction_frame now v db :
  cardholders (new_transaction now v db).1 = cardholders db
  ∧ transactions (new_transaction now v db).1 = transactions db
  ∧ fraud_detection_logs (new_transaction now v db).1 = fraud_detection_logs db
  ∧ case_management (new_transaction now v db).1 = case_management db.
Proof. unfold new_transaction. repeat case_match; simplify_eq; done. Qed.

Lemma new_log_frame now v db :
  cardholders (new_log now v db).1 = cardholders db
  ∧ transactions (new_log now v db).1 = transactions db
  ∧ fraud_detection_logs (new_log now v db).1 = fraud_detection_logs db
  ∧ case_management (new_log now v db).1 = case_management db.
Proof. unfold new_log. repeat case_match; simplify_eq; done. Qed.

Lemma new_case_frame now v db :
  cardholders (new_case now v db).1 = cardholders db
  ∧ transactions (new_case now v db).1 = transactions db
  ∧ fraud_detection_logs (new_case now v db).1 = fraud_detection_logs db
  ∧ case_management (new_case now v db).1 = case_management db.
Proof. unfold new_case. repeat case_match; simplify_eq; done. Qed.

(** What one row does to the tables: nothing to the other three; to its
    own, nothing when it fails, and when it goes in, the row that the values
    make up, with a key that was free. *)
Lemma insert_cardholder_spec now v db :
  transactions (insert_cardholder now v db).1 = transactions db
  ∧ fraud_detection_logs (insert_cardholder now v db).1 = fraud_detection_logs db
  ∧ case_management (insert_cardholder now v db).1 = case_management db
  ∧ match (insert_cardholder now v db).2 with
    | Some _ => cardholders (insert_cardholder now v db).1 = cardholders db
    | None =>
        ∃ r, (new_cardholder now v db).2 = inr r
             ∧ has_cardholder (Cardholders.cardholder_id r) db = false
             ∧ has_card_number (Cardholders.card_number r) db = false
             ∧ cardholders (insert_cardholder now v db).1 = cardholders db ++ [r]
    end.
Proof.
  unfold insert_cardholder.
  pose proof (new_cardholder_frame now v db) as (Hc & Ht & Hl & Hm).
  destruct (new_cardholder now v db) as [db1 [e|r]]; simpl in *; [done|].
  unfold check_cardholder, has_cardholder, has_card_number. rewrite Hc.
  match goal with
  | |- context [unique "cardholders_pkey" ?b] => destruct b eqn:H1
  end; simpl; [done|].
  match goal with
  | |- context [unique "cardholders_card_number_key" ?b] => destruct b eqn:H2
  end; simpl; [done|].
  do 3 (split; [done|]). exists r. by rewrite Hc.
Qed.

Lemma insert_transaction_spec now v db :
  cardholders (insert_transaction now v db).1 = cardholders db
  ∧ fraud_detection_logs (insert_transaction now v db).1 = fraud_detection_logs db
  ∧ case_management (insert_transaction now v db).1 = case_management db
  ∧ match (insert_transaction now v db).2 with
    | Some _ => transactions (insert_transaction now v db).1 = transactions db
    | None =>
        ∃ r, (new_transaction now v db).2 = inr r
             ∧ has_transaction (Transactions.transaction_id r) db = false
             ∧ transactions (insert_transaction now v db).1 = transactions db ++ [r]
    end.
Proof.
  unfold insert_transaction.
  pose proof (new_transaction_frame now v db) as (Hc & Ht & Hl & Hm).
  destruct (new_transaction now v db) as [db1 [e|r]]; simpl in *; [done|].
  unfold check_transaction, has_transaction. rewrite Ht.
  match goal with
  | |- context [unique _ ?b] => destruct b eqn:H1
  end; simpl; [done|].
  do 3 (split; [done|]). exists r. by rewrite Ht.
Qed.

Lemma insert_log_spec now v db :
  cardholders (insert_log now v db).1 = cardholders db
  ∧ transactions (insert_log now v db).1 = transactions db
  ∧ case_management (insert_log now v db).1 = case_management db
  ∧ match (insert_log now v db).2 with
    | Some _ => fraud_detection_logs (insert_log now v db).1 = fraud_detection_logs db
    | None =>
        ∃ r, (new_log now v db).2 = inr r
             ∧ has_log (FraudDetectionLogs.log_id r) db = false
             ∧ fraud_detection_logs (insert_log now v db).1
               = fraud_detection_logs db ++ [r]
    end.
Proof.
  unfold insert_log.
  pose proof (new_log_frame now v db) as (Hc & Ht & Hl & Hm).
  destruct (new_log now v db) as [db1 [e|r]]; simpl in *; [done|].
  unfold check_log, has_log. rewrite Hl.
  match goal with
  | |- context [unique _ ?b] => destruct b eqn:H1
  end; simpl; [done|].
  do 3 (split; [done|]). exists r. by rewrite Hl.
Qed.

Lemma insert_case_spec now v db :
  cardholders (insert_case now v db).1 = cardholders db
  ∧ transactions (insert_case now v db).1 = transactions db
  ∧ fraud_detection_logs (insert_case now v db).1 = fraud_detection_logs db
  ∧ match (insert_case now v db).2 with
    | Some _ => case_management (insert_case now v db).1 = case_management db
    | None =>
        ∃ r, (new_case now v db).2 = inr r
             ∧ has_case (CaseManagement.case_id r) db = false
             ∧ case_management (insert_case now v db).1 = case_management db ++ [r]
    end.
Proof.
  unfold insert_case.
  pose proof (new_case_frame now v db) as (Hc & Ht & Hl & Hm).
  destruct (new_case now v db) as [db1 [e|r]]; simpl in *; [done|].
  unfold check_case, has_case. rewrite Hm.
  match goal with
  | |- context [unique _ ?b] => destruct b eqn:H1
  end; simpl; [done|].
  do 3 (split; [done|]). exists r. by rewrite Hm.
Qed.

(** **** The rows of a VALUES list *)

Lemma insert_rows_keeps {V R} (table : database → list R)
  (insert : V → database → database * option sql_error) :
  (∀ v db, table (insert v db).1 = table db) →
  ∀ rows db, table (insert_rows insert rows db).1 = table db.
Proof.
  intros Hkeep rows db.
  apply (insert_rows_preserves (fun d => table d = table db)); [|done].
  intros v db0 <-. apply Hkeep.
Qed.

Lemma insert_rows_grows {V R} (table : database → list R) (P : R → Prop)
  (insert : V → database → database * option sql_error) :
  (∀ v db,
     match (insert v db).2 with
     | Some _ => table (insert v db).1 = table db
     | None => ∃ r, P r ∧ table (insert v db).1 = table db ++ [r]
     end) →
  ∀ rows db,
    ∃ added, table (insert_rows insert rows db).1 = table db ++ added
             ∧ Forall P added
             ∧ ((insert_rows insert rows db).2 = None → length added = length rows).
Proof.
  intros Hstep. induction rows as [|v rest IH]; intros db.
  - exists []. simpl. by rewrite app_nil_r.
  - simpl. specialize (Hstep v db).
    destruct (insert v db) as [db1 [e|]]; simpl in *.
    + exists []. rewrite app_nil_r. by repeat split.
    + destruct Hstep as (r & Hr & Hr1). destruct (IH db1) as (added & Ha & HP & Hlen).
      exists (r :: added). rewrite Ha, Hr1, <- app_assoc. split; [done|].
      split; [by constructor|]. intros Hok. simpl. by rewrite Hlen.
Qed.

(** **** One statement *)

Lemma references_inr constraint found : references constraint found = inr tt → found = true.
Proof. by destruct found. Qed.

Lemma execute_cardholders now rows db :
  let out := execute now (INSERT_INTO_cardholders rows) db in
  transactions out.1 = transactions db
  ∧ fraud_detection_logs out.1 = fraud_detection_logs db
  ∧ case_management out.1 = case_management db
  ∧ match out.2 with
    | Some _ => cardholders out.1 = cardholders db
    | None =>
        ∃ added, cardholders out.1 = cardholders db ++ added
                 ∧ length added = length rows
    end.
Proof.
  cbv zeta. unfold execute. simpl.
  pose proof (insert_rows_keeps transactions (insert_cardholder now)
                (fun v d => proj1 (insert_cardholder_spec now v d)) rows db) as Ht.
  pose proof (insert_rows_keeps fraud_detection_logs (insert_cardholder now)
                (fun v d => proj1 (proj2 (insert_cardholder_spec now v d))) rows db) as Hl.
  pose proof (insert_rows_keeps case_management (insert_cardholder now)
                (fun v d => proj1 (proj2 (proj2 (insert_cardholder_spec now v d)))) rows db)
    as Hm.
  destruct (insert_rows_grows cardholders (fun _ => True) (insert_cardholder now))
    with (rows := rows) (db := db) as (added & Ha & _ & Hlen).
  { intros v d. destruct (insert_cardholder_spec now v d) as (_ & _ & _ & H).
    destruct (insert_cardholder now v d).2; [done|].
    destruct H as (r & _ & _ & _ & H). by exists r. }
  destruct (insert_rows (insert_cardholder now) rows db) as [db' [e|]]; simpl in *;
    [done|].
  do 3 (split; [done|]). exists added. auto.
Qed.

Lemma execute_transactions now rows db :
  let out := execute now (INSERT_INTO_transactions rows) db in
  cardholders out.1 = cardholders db
  ∧ fraud_detection_logs out.1 = fraud_detection_logs db
  ∧ case_management out.1 = case_management db
  ∧ match out.2 with
    | Some _ => transactions out.1 = transactions db
    | None =>
        ∃ added, transactions out.1 = transactions db ++ added
                 ∧ length added = length rows
                 ∧ Forall (fun r => has_cardholder (Transactions.cardholder_id r) db
                                    = true) added
    end.
Proof.
  cbv zeta. unfold execute. simpl.
  pose proof (insert_rows_keeps cardholders (insert_transaction now)
                (fun v d => proj1 (insert_transaction_spec now v d)) rows db) as Hc.
  pose proof (insert_rows_keeps fraud_detection_logs (insert_transaction now)
                (fun v d => proj1 (proj2 (insert_transaction_spec now v d))) rows db) as Hl.
  pose proof (insert_rows_keeps case_management (insert_transaction now)
                (fun v d => proj1 (proj2 (proj2 (insert_transaction_spec now v d)))) rows db)
    as Hm.
  destruct (insert_rows_grows transactions (fun _ => True) (insert_transaction now))
    with (rows := rows) (db := db) as (added & Ha & _ & Hlen).
  { intros v d. destruct (insert_transaction_spec now v d) as (_ & _ & _ & H).
    destruct (insert_transaction now v d).2; [done|].
    destruct H as (r & _ & _ & H). by exists r. }
  destruct (insert_rows (insert_transaction now) rows db) as [db' [e|]]; simpl in *;
    [done|].
  rewrite Ha, drop_app_length.
  destruct (for_each (references_transaction db') added) as [e|[]] eqn:Hfk;
    simpl; [done|].
  do 3 (split; [done|]). exists added. split; [done|]. split; [auto|].
  apply for_each_inr in Hfk. eapply Forall_impl; [exact Hfk|].
  intros r Hr. apply references_inr in Hr.
  unfold has_cardholder in *. by rewrite <- Hc.
Qed.

Lemma execute_logs now rows db :
  let out := execute now (INSERT_INTO_fraud_detection_logs rows) db in
  cardholders out.1 = cardholders db
  ∧ transactions out.1 = transactions db
  ∧ case_management out.1 = case_management db
  ∧ match out.2 with
    | Some _ => fraud_detection_logs out.1 = fraud_detection_logs db
    | None =>
        ∃ added, fraud_detection_logs out.1 = fraud_detection_logs db ++ added
                 ∧ length added = length rows
                 ∧ Forall (fun r => has_transaction
                                      (FraudDetectionLogs.transaction_id r) db
                                    = true) added
    end.
Proof.
  cbv zeta. unfold execute. simpl.
  pose proof (insert_rows_keeps cardholders (insert_log now)
                (fun v d => proj1 (insert_log_spec now v d)) rows db) as Hc.
  pose proof (insert_rows_keeps transactions (insert_log now)
                (fun v d => proj1 (proj2 (insert_log_spec now v d))) rows db) as Ht.
  pose proof (insert_rows_keeps case_management (insert_log now)
                (fun v d => proj1 (proj2 (proj2 (insert_log_spec now v d)))) rows db)
    as Hm.
  destruct (insert_rows_grows fraud_detection_logs (fun _ => True) (insert_log now))
    with (rows := rows) (db := db) as (added & Ha & _ & Hlen).
  { intros v d. destruct (insert_log_spec now v d) as (_ & _ & _ & H).
    destruct (insert_log now v d).2; [done|].
    destruct H as (r & _ & _ & H). by exists r. }
  destruct (insert_rows (insert_log now) rows db) as [db' [e|]]; simpl in *;
    [done|].
  rewrite Ha, drop_app_length.
  destruct (for_each (references_log db') added) as [e|[]] eqn:Hfk;
    simpl; [done|].
  do 3 (split; [done|]). exists added. split; [done|]. split; [auto|].
  apply for_each_inr in Hfk. eapply Forall_impl; [exact Hfk|].
  intros r Hr. apply references_inr in Hr.
  unfold has_transaction in *. by rewrite <- Ht.
Qed.

Lemma execute_cases now rows db :
  let out := execute now (INSERT_INTO_case_management rows) db in
  cardholders out.1 = cardholders db
  ∧ transactions out.1 = transactions db
  ∧ fraud_detection_logs out.1 = fraud_detection_logs db
  ∧ match out.2 with
    | Some _ => case_management out.1 = case_management db
    | None =>
        ∃ added, case_management out.1 = case_management db ++ added
                 ∧ length added = length rows
                 ∧ Forall (fun r => has_transaction
                                      (CaseManagement.transaction_id r) db
                                    = true) added
    end.
Proof.
  cbv zeta. unfold execute. simpl.
  pose proof (insert_rows_keeps cardholders (insert_case now)
                (fun v d => proj1 (insert_case_spec now v d)) rows db) as Hc.
  pose proof (insert_rows_keeps transactions (insert_case now)
                (fun v d => proj1 (proj2 (insert_case_spec now v d))) rows db) as Ht.
  pose proof (insert_rows_keeps fraud_detection_logs (insert_case now)
                (fun v d => proj1 (proj2 (proj2 (insert_case_spec now v d)))) rows db)
    as Hl.
  destruct (insert_rows_grows case_management (fun _ => True) (insert_case now))
    with (rows := rows) (db := db) as (added & Ha & _ & Hlen).
  { intros v d. destruct (insert_case_spec now v d) as (_ & _ & _ & H).
    destruct (insert_case now v d).2; [done|].
    destruct H as (r & _ & _ & H). by exists r. }
  destruct (insert_rows (insert_case now) rows db) as [db' [e|]]; simpl in *;
    [done|].
  rewrite Ha, drop_app_length.
  destruct (for_each (references_case db') added) as [e|[]] eqn:Hfk;
    simpl; [done|].
  do 3 (split; [done|]). exists added. split; [done|]. split; [auto|].
  apply for_each_inr in Hfk. eapply Forall_impl; [exact Hfk|].
  intros r Hr. apply references_inr in Hr.
  unfold has_transaction in *. by rewrite <- Ht.
Qed.

(** Rows are only ever added, at the end of the statement's own table, and
    all of them or none. *)
Lemma execute_grows now st db :
  cardholders db `prefix_of` cardholders (execute now st db).1
  ∧ transactions db `prefix_of` transactions (execute now st db).1
  ∧ fraud_detection_logs db `prefix_of` fraud_detection_logs (execute now st db).1
  ∧ case_management db `prefix_of` case_management (execute now st db).1
  ∧ row_count (execute now st db).1
    = row_count db
      + match (execute now st db).2 with
        | Some _ => 0
        | None => statement_rows st
        end.
Proof.
  unfold row_count.
  destruct st as [rows|rows|rows|rows]; simpl.
  - destruct (execute_cardholders now rows db) as (-> & -> & -> & H).
    destruct (execute now (INSERT_INTO_cardholders rows) db).2.
    + rewrite H. repeat split; try done; lia.
    + destruct H as (added & -> & Hlen).
      repeat split; try done; [by apply prefix_app_r|]. rewrite length_app. lia.
  - destruct (execute_transactions now rows db) as (-> & -> & -> & H).
    destruct (execute now (INSERT_INTO_transactions rows) db).2.
    + rewrite H. repeat split; try done; lia.
    + destruct H as (added & -> & Hlen & _).
      repeat split; try done; [by apply prefix_app_r|]. rewrite length_app. lia.
  - destruct (execute_logs now rows db) as (-> & -> & -> & H).
    destruct (execute now (INSERT_INTO_fraud_detection_logs rows) db).2.
    + rewrite H. repeat split; try done; lia.
    + destruct H as (added & -> & Hlen & _).
      repeat split; try done; [by apply prefix_app_r|]. rewrite length_app. lia.
  - destruct (execute_cases now rows db) as (-> & -> & -> & H).
    destruct (execute now (INSERT_INTO_case_management rows) db).2.
    + rewrite H. repeat split; try done; lia.
    + destruct H as (added & -> & Hlen & _).
      repeat split; try done; [by apply prefix_app_r|]. rewrite length_app. lia.
Qed.

(** X11. A statement never changes or removes a row that is there: each
    table of the result starts with the table as it was. And it is all or
    nothing: the database gains every row of the VALUES list when the
    statement succeeds and none when it fails. *)
Theorem execute_all_or_nothing (now : timestamp) (st : statement) (db : database) :
  let out := execute now st db in
  cardholders db `prefix_of` cardholders out.1
  ∧ transactions db `prefix_of` transactions out.1
  ∧ fraud_detection_logs db `prefix_of` fraud_detection_logs out.1
  ∧ case_management db `prefix_of` case_management out.1
  ∧ row_count out.1
    = row_count db
      + match out.2 with Some _ => 0 | None => statement_rows st end.
Proof. apply execute_grows. Qed.

(** **** Foreign keys *)

(** Every reference points at a row that is there. *)
Definition references_hold (db : database) : Prop :=
  Forall (fun t => has_cardholder (Transactions.cardholder_id t) db = true)
    (transactions db)
  ∧ Forall (fun l => has_transaction (FraudDetectionLogs.transaction_id l) db = true)
      (fraud_detection_logs db)
  ∧ Forall (fun c => has_transaction (CaseManagement.transaction_id c) db = true)
      (case_management db).

Lemma has_cardholder_prefix id db db' :
  cardholders db `prefix_of` cardholders db' →
  has_cardholder id db = true → has_cardholder id db' = true.
Proof.
  intros [k Hk]. unfold has_cardholder. rewrite Hk, existsb_app.
  by intros ->.
Qed.

Lemma has_transaction_prefix id db db' :
  transactions db `prefix_of` transactions db' →
  has_transaction id db = true → has_transaction id db' = true.
Proof.
  intros [k Hk]. unfold has_transaction. rewrite Hk, existsb_app.
  by intros ->.
Qed.

Lemma execute_references now st db :
  references_hold db → references_hold (execute now st db).1.
Proof.
  intros (Ht & Hl & Hm).
  destruct (execute_grows now st db) as (Pc & Pt & _).
  assert (∀ id, has_cardholder id db = true →
                has_cardholder id (execute now st db).1 = true) as Mc
    by (intros id; by apply has_cardholder_prefix).
  assert (∀ id, has_transaction id db = true →
                has_transaction id (execute now st db).1 = true) as Mt
    by (intros id; by apply has_transaction_prefix).
  unfold references_hold.
  destruct st as [rows|rows|rows|rows].
  - destruct (execute_cardholders now rows db) as (Et & El & Em & _).
    rewrite Et, El, Em.
    repeat split; (eapply Forall_impl; [eassumption|]); intros r Hr; auto.
  - destruct (execute_transactions now rows db) as (Ec & El & Em & H).
    rewrite El, Em.
    split; [|split; (eapply Forall_impl; [eassumption|]); intros r Hr; auto].
    destruct (execute now (INSERT_INTO_transactions rows) db).2.
    + rewrite H. eapply Forall_impl; [exact Ht|]. intros r Hr; auto.
    + destruct H as (added & -> & _ & Hadded).
      apply Forall_app. split; (eapply Forall_impl; [eassumption|]);
        intros r Hr; auto.
  - destruct (execute_logs now rows db) as (Ec & Et & Em & H).
    rewrite Et, Em.
    split; [eapply Forall_impl; [exact Ht|]; intros r Hr; auto|].
    split; [|eapply Forall_impl; [exact Hm|]; intros r Hr; auto].
    destruct (execute now (INSERT_INTO_fraud_detection_logs rows) db).2.
    + rewrite H. eapply Forall_impl; [exact Hl|]. intros r Hr; auto.
    + destruct H as (added & -> & _ & Hadded).
      apply Forall_app. split; (eapply Forall_impl; [eassumption|]);
        intros r Hr; auto.
  - destruct (execute_cases now rows db) as (Ec & Et & El & H).
    rewrite Et, El.
    split; [eapply Forall_impl; [exact Ht|]; intros r Hr; auto|].
    split; [eapply Forall_impl; [exact Hl|]; intros r Hr; auto|].
    destruct (execute now (INSERT_INTO_case_management rows) db).2.
    + rewrite H. eapply Forall_impl; [exact Hm|]. intros r Hr; auto.
    + destruct H as (added & -> & _ & Hadded).
      apply Forall_app. split; (eapply Forall_impl; [eassumption|]);
        intros r Hr; auto.
Qed.

Lemma reachable_references db : reachable db → references_hold db.
Proof.
  induction 1 as [now|db now st _ IH].
  - repeat split; apply Forall_nil_2.
  - by apply execute_references.
Qed.

(** X10. Referential integrity: in every state the database can reach,
    each transaction belongs to a cardholder of the table, and each
    detection log and each case to a transaction of the table. *)
Theorem references_always_hold (db : database) :
  reachable db →
  (∀ t, t ∈ transactions db →
     ∃ c, c ∈ cardholders db
          ∧ Cardholders.cardholder_id c = Transactions.cardholder_id t)
  ∧ (∀ l, l ∈ fraud_detection_logs db →
       ∃ t, t ∈ transactions db
            ∧ Transactions.transaction_id t = FraudDetectionLogs.transaction_id l)
  ∧ (∀ c, c ∈ case_management db →
       ∃ t, t ∈ transactions db
            ∧ Transactions.transaction_id t = CaseManagement.transaction_id c).
Proof.
  intros (Ht & Hl & Hm)%reachable_references.
  rewrite Forall_forall in Ht. rewrite Forall_forall in Hl.
  rewrite Forall_forall in Hm.
  split; [|split].
  - intros t Hin. by apply has_cardholder_spec, Ht.
  - intros l Hin. by apply has_transaction_spec, Hl.
  - intros c Hin. by apply has_transaction_spec, Hm.
Qed.

(** **** Invariants kept row by row *)

(** A property of the tables alone. *)
Definition tables_only (Q : database → Prop) : Prop :=
  ∀ a b,
    cardholders a = cardholders b → transactions a = transactions b →
    fraud_detection_logs a = fraud_detection_logs b →
    case_management a = case_management b → Q a → Q b.

Lemma execute_preserves (Q : database → Prop) :
  tables_only Q →
  (∀ now v db, Q db → Q (insert_cardholder now v db).1) →
  (∀ now v db, Q db → Q (insert_transaction now v db).1) →
  (∀ now v db, Q db → Q (insert_log now v db).1) →
  (∀ now v db, Q db → Q (insert_case now v db).1) →
  ∀ now st db, Q db → Q (execute now st db).1.
Proof.
  intros Htables Hc Ht Hl Hm now st db HQ.
  assert (∀ run : database → database * option sql_error,
            Q (run db).1 →
            Q (match run db with
               | (db', Some e) => (rollback db db', Some e)
               | (db', None) =>
                   match foreign_keys st db db' with
                   | inl e => (rollback db db', Some e)
                   | inr _ => (db', None)
                   end
               end).1) as Hwrap.
  { intros run Hrun.
    assert (Q (rollback db (run db).1)) as Hback
      by (by apply (Htables db)).
    destruct (run db) as [db' [e|]]; [done|].
    by destruct (foreign_keys st db db'). }
  unfold execute. apply Hwrap.
  destruct st as [rows|rows|rows|rows]; apply insert_rows_preserves; auto.
Qed.

Lemma reachable_invariant (Q : database → Prop) :
  tables_only Q →
  (∀ now, Q (schema_postgresql now).1) →
  (∀ now v db, Q db → Q (insert_cardholder now v db).1) →
  (∀ now v db, Q db → Q (insert_transaction now v db).1) →
  (∀ now v db, Q db → Q (insert_log now v db).1) →
  (∀ now v db, Q db → Q (insert_case now v db).1) →
  ∀ db, reachable db → Q db.
Proof.
  intros Htables H0 Hc Ht Hl Hm db Hreach.
  induction Hreach as [now|db now st _ IH]; [apply H0|].
  by apply execute_preserves.
Qed.

(** **** Keys *)

Definition keys_unique (db : database) : Prop :=
  NoDup (map Cardholders.card_number (cardholders db))
  ∧ NoDup (map Cardholders.cardholder_id (cardholders db))
  ∧ NoDup (map Transactions.transaction_id (transactions db))
  ∧ NoDup (map FraudDetectionLogs.log_id (fraud_detection_logs db))
  ∧ NoDup (map CaseManagement.case_id (case_management db)).

Lemma NoDup_map_snoc {A K} (f : A → K) (l : list A) (r : A) :
  NoDup (map f l) → (∀ a, a ∈ l → f a ≠ f r) → NoDup (map f (l ++ [r])).
Proof.
  intros Hl Hnew. rewrite map_app. apply NoDup_app. split; [done|]. split.
  - intros k Hk Hk'. simpl in Hk'. apply list_elem_of_singleton in Hk'. subst k.
    apply list_elem_of_In, in_map_iff in Hk as (a & Heq & Hin).
    apply list_elem_of_In in Hin. by apply (Hnew a Hin).
  - simpl. apply NoDup_singleton.
Qed.

Lemma existsb_false {A} (p : A → bool) (l : list A) (a : A) :
  existsb p l = false → a ∈ l → p a = false.
Proof.
  intros Hnone Hin. destruct (p a) eqn:Hp; [|done].
  assert (existsb p l = true) as Hsome; [|congruence].
  apply existsb_exists. exists a. by rewrite <- list_elem_of_In.
Qed.

Lemma insert_cardholder_keys now v db :
  keys_unique db → keys_unique (insert_cardholder now v db).1.
Proof.
  intros (Hn & Hc & Ht & Hl & Hm). unfold keys_unique.
  destruct (insert_cardholder_spec now v db) as (-> & -> & -> & H).
  destruct (insert_cardholder now v db).2; [by rewrite H|].
  destruct H as (r & _ & Hid & Hnum & ->).
  repeat split; try done; apply NoDup_map_snoc; try done.
  - intros a Ha Heq.
    pose proof (existsb_false _ _ a Hnum Ha) as Hneq. simpl in Hneq.
    apply String.eqb_neq in Hneq. done.
  - intros a Ha Heq.
    pose proof (existsb_false _ _ a Hid Ha) as Hneq. simpl in Hneq.
    apply Z.eqb_neq in Hneq. done.
Qed.

Lemma insert_transaction_keys now v db :
  keys_unique db → keys_unique (insert_transaction now v db).1.
Proof.
  intros (Hn & Hc & Ht & Hl & Hm). unfold keys_unique.
  destruct (insert_transaction_spec now v db) as (-> & -> & -> & H).
  destruct (insert_transaction now v db).2; [by rewrite H|].
  destruct H as (r & _ & Hid & ->).
  repeat split; try done; apply NoDup_map_snoc; try done.
  intros a Ha Heq.
  pose proof (existsb_false _ _ a Hid Ha) as Hneq. simpl in Hneq.
  apply Z.eqb_neq in Hneq. done.
Qed.

Lemma insert_log_keys now v db :
  keys_unique db → keys_unique (insert_log now v db).1.
Proof.
  intros (Hn & Hc & Ht & Hl & Hm). unfold keys_unique.
  destruct (insert_log_spec now v db) as (-> & -> & -> & H).
  destruct (insert_log now v db).2; [by rewrite H|].
  destruct H as (r & _ & Hid & ->).
  repeat split; try done; apply NoDup_map_snoc; try done.
  intros a Ha Heq.
  pose proof (existsb_false _ _ a Hid Ha) as Hneq. simpl in Hneq.
  apply Z.eqb_neq in Hneq. done.
Qed.

Lemma insert_case_keys now v db :
  keys_unique db → keys_unique (insert_case now v db).1.
Proof.
  intros (Hn & Hc & Ht & Hl & Hm). unfold keys_unique.
  destruct (insert_case_spec now v db) as (-> & -> & -> & H).
  destruct (insert_case now v db).2; [by rewrite H|].
  destruct H as (r & _ & Hid & ->).
  repeat split; try done; apply NoDup_map_snoc; try done.
  intros a Ha Heq.
  pose proof (existsb_false _ _ a Hid Ha) as Hneq. simpl in Hneq.
  apply Z.eqb_neq in Hneq. done.
Qed.

Lemma reachable_keys db : reachable db → keys_unique db.
Proof.
  apply (reachable_invariant keys_unique).
  - intros a b Hc Ht Hl Hm. unfold keys_unique. by rewrite Hc, Ht, Hl, Hm.
  - intros now. unfold keys_unique. vm_compute.
    repeat split;
      repeat (apply NoDup_cons_2;
              [rewrite ?not_elem_of_cons; repeat split;
               try discriminate; apply not_elem_of_nil|]);
      apply NoDup_nil_2.
  - apply insert_cardholder_keys.
  - apply insert_transaction_keys.
  - apply insert_log_keys.
  - apply insert_case_keys.
Qed.

(** X8. In every state the database can reach, no two cardholders have the
    same card number. *)
Theorem card_numbers_stay_unique (db : database) (a b : Cardholders.row) (i j : nat) :
  reachable db →
  cardholders db !! i = Some a →
  cardholders db !! j = Some b →
  Cardholders.card_number a = Cardholders.card_number b →
  i = j.
Proof.
  intros (Hn & _)%reachable_keys Ha Hb Heq.
  apply (NoDup_lookup _ i j (Cardholders.card_number a) Hn).
  - change map with (@fmap list _) in *. by rewrite list_lookup_fmap, Ha.
  - change map with (@fmap list _) in *. by rewrite list_lookup_fmap, Hb, Heq.
Qed.

(** X9. In every state the database can reach, the primary key of each of
    the four tables names its rows apart. *)
Theorem primary_keys_stay_unique (db : database) :
  reachable db →
  NoDup (map Cardholders.cardholder_id (cardholders db))
  ∧ NoDup (map Transactions.transaction_id (transactions db))
  ∧ NoDup (map FraudDetectionLogs.log_id (fraud_detection_logs db))
  ∧ NoDup (map CaseManagement.case_id (case_management db)).
Proof. by intros (_ & Hkeys)%reachable_keys. Qed.

(** **** Column types of the stored rows *)

(** What a DECIMAL(10,2) column can hold. *)
Definition amount_fits (v : numeric) : Prop :=
  v = NaN ∨ ∃ d, v = Finite d 2 ∧ (Z.abs d < 10 ^ 10)%Z.

Definition cardholder_fits (r : Cardholders.row) : Prop :=
  (String.length (Cardholders.name r) ≤ 100)%nat
  ∧ (String.length (Cardholders.card_number r) ≤ 16)%nat
  ∧ (String.length (Cardholders.account_number r) ≤ 20)%nat.

Definition transaction_fits (r : Transactions.row) : Prop :=
  (String.length (Transactions.merchant_id r) ≤ 20)%nat
  ∧ (String.length (Transactions.location r) ≤ 100)%nat
  ∧ amount_fits (Transactions.amount r).

Definition log_fits (r : FraudDetectionLogs.row) : Prop :=
  (String.length (FraudDetectionLogs.decision r) ≤ 20)%nat.

Definition case_fits (r : CaseManagement.row) : Prop :=
  (String.length (CaseManagement.risk_level r) ≤ 10)%nat
  ∧ ∀ s, CaseManagement.status r = Some s → (String.length s ≤ 20)%nat.

Definition rows_fit (db : database) : Prop :=
  Forall cardholder_fits (cardholders db)
  ∧ Forall transaction_fits (transactions db)
  ∧ Forall log_fits (fraud_detection_logs db)
  ∧ Forall case_fits (case_management db).

Lemma substring_length_le s : ∀ n m, (String.length (String.substring n m s) ≤ m)%nat.
Proof.
  induction s as [|c s IH]; intros [|n] [|m]; simpl; try lia.
  - specialize (IH 0 m). lia.
  - apply IH.
  - apply IH.
Qed.

Lemma varchar_inv n column s s' :
  varchar n column s = inr s' → (String.length s' ≤ n)%nat.
Proof.
  unfold varchar. destruct (String.length s <=? n)%nat eqn:Hlen.
  - intros [= <-]. by apply Nat.leb_le.
  - destruct (all_spaces _); [|discriminate].
    intros [= <-]. apply substring_length_le.
Qed.

Lemma varchar_fits n column s :
  (String.length s ≤ n)%nat → varchar n column s = inr s.
Proof. intros Hlen. unfold varchar. by apply Nat.leb_le in Hlen as ->. Qed.

Lemma decimal_stored p s column v v' :
  decimal p s column v = inr v' →
  v' = NaN ∨ ∃ d, v' = Finite d s ∧ (Z.abs d < 10 ^ Z.of_nat p)%Z.
Proof.
  destruct v as [d sc| |neg]; simpl; [|intros [= <-]; by left|discriminate].
  destruct (Z.abs (round_to_scale s d sc) <? 10 ^ Z.of_nat p)%Z eqn:Hlt;
    [|discriminate].
  intros [= <-]. right. exists (round_to_scale s d sc). split; [done|].
  by apply Z.ltb_lt.
Qed.

(** Reads the facts a stored row owes to the steps it went through. *)
Ltac row_facts :=
  repeat match goal with
  | H : not_null _ (or_default None _) = inr _ |- _ =>
      apply not_null_inv in H; subst
  end;
  repeat match goal with
  | H : convert _ _ = inr (Value _) |- _ =>
      let a := fresh "a" in
      let Ha := fresh "Ha" in
      apply convert_inv in H as (a & _ & Ha)
  end.

Lemma new_cardholder_fits now v db r :
  (new_cardholder now v db).2 = inr r → cardholder_fits r.
Proof.
  destruct (new_cardholder now v db) as [db1 res] eqn:H. simpl. intros ->.
  unfold new_cardholder in H. crack H. injection H as <- <-.
  row_facts. unfold cardholder_fits. simpl.
  repeat split; eapply varchar_inv; eassumption.
Qed.

Lemma new_transaction_fits now v db r :
  (new_transaction now v db).2 = inr r → transaction_fits r.
Proof.
  destruct (new_transaction now v db) as [db1 res] eqn:H. simpl. intros ->.
  unfold new_transaction in H. crack H. injection H as <- <-.
  row_facts. unfold transaction_fits. simpl.
  split; [eapply varchar_inv; eassumption|].
  split; [eapply varchar_inv; eassumption|].
  eapply (decimal_stored 10 2). eassumption.
Qed.

Lemma new_log_fits now v db r :
  (new_log now v db).2 = inr r → log_fits r.
Proof.
  destruct (new_log now v db) as [db1 res] eqn:H. simpl. intros ->.
  unfold new_log in H. crack H. injection H as <- <-.
  row_facts. unfold log_fits. simpl. eapply varchar_inv; eassumption.
Qed.

Lemma new_case_fits now v db r :
  (new_case now v db).2 = inr r → case_fits r.
Proof.
  destruct (new_case now v db) as [db1 res] eqn:H. simpl. intros ->.
  unfold new_case in H. crack H. injection H as <- <-.
  row_facts. unfold case_fits. simpl.
  split; [eapply varchar_inv; eassumption|].
  intros str Hs.
  match goal with
  | H : convert (varchar 20 "status") _ = inr ?i |- _ =>
      destruct i as [| |str0]; simpl in Hs; simplify_eq;
      [vm_compute; lia|]; apply convert_inv in H as (given & _ & Hgiven)
  end.
  eapply varchar_inv; eassumption.
Qed.

Lemma reachable_rows_fit : ∀ db, reachable db → rows_fit db.
Proof.
  apply (reachable_invariant rows_fit).
  - intros a b Hc Ht Hl Hm. unfold rows_fit. by rewrite Hc, Ht, Hl, Hm.
  - intros now. unfold rows_fit. simpl.
    repeat split; try apply Forall_nil_2.
    repeat constructor; vm_compute; lia.
  - intros now v db (Hc & Ht & Hl & Hm). unfold rows_fit.
    destruct (insert_cardholder_spec now v db) as (-> & -> & -> & H).
    destruct (insert_cardholder now v db).2; [by rewrite H|].
    destruct H as (r & Hr & _ & _ & ->). repeat split; try done.
    apply Forall_app. split; [done|].
    apply Forall_singleton. by eapply new_cardholder_fits.
  - intros now v db (Hc & Ht & Hl & Hm). unfold rows_fit.
    destruct (insert_transaction_spec now v db) as (-> & -> & -> & H).
    destruct (insert_transaction now v db).2; [by rewrite H|].
    destruct H as (r & Hr & _ & ->). repeat split; try done.
    apply Forall_app. split; [done|].
    apply Forall_singleton. by eapply new_transaction_fits.
  - intros now v db (Hc & Ht & Hl & Hm). unfold rows_fit.
    destruct (insert_log_spec now v db) as (-> & -> & -> & H).
    destruct (insert_log now v db).2; [by rewrite H|].
    destruct H as (r & Hr & _ & ->). repeat split; try done.
    apply Forall_app. split; [done|].
    apply Forall_singleton. by eapply new_log_fits.
  - intros now v db (Hc & Ht & Hl & Hm). unfold rows_fit.
    destruct (insert_case_spec now v db) as (-> & -> & -> & H).
    destruct (insert_case now v db).2; [by rewrite H|].
    destruct H as (r & Hr & _ & ->). repeat split; try done.
    apply Forall_app. split; [done|].
    apply Forall_singleton. by eapply new_case_fits.
Qed.

(** X12. In every state the database can reach, each stored string is
    within the length its VARCHAR column declares: 100, 16 and 20 for a
    cardholder's name, card number and account number, 20 and 100 for a
    transaction's merchant and location, 20 for a log's decision, 10 for a
    case's risk level and 20 for its status when it has one. *)
Theorem strings_fit_their_columns (db : database) :
  reachable db →
  (∀ r, r ∈ cardholders db →
     (String.length (Cardholders.name r) ≤ 100)%nat
     ∧ (String.length (Cardholders.card_number r) ≤ 16)%nat
     ∧ (String.length (Cardholders.account_number r) ≤ 20)%nat)
  ∧ (∀ r, r ∈ transactions db →
       (String.length (Transactions.merchant_id r) ≤ 20)%nat
       ∧ (String.length (Transactions.location r) ≤ 100)%nat)
  ∧ (∀ r, r ∈ fraud_detection_logs db →
       (String.length (FraudDetectionLogs.decision r) ≤ 20)%nat)
  ∧ (∀ r, r ∈ case_management db →
       (String.length (CaseManagement.risk_level r) ≤ 10)%nat
       ∧ ∀ s, CaseManagement.status r = Some s → (String.length s ≤ 20)%nat).
Proof.
  intros (Hc & Ht & Hl & Hm)%reachable_rows_fit.
  rewrite Forall_forall in Hc. rewrite Forall_forall in Ht.
  rewrite Forall_forall in Hl. rewrite Forall_forall in Hm.
  split; [|split; [|split]].
  - intros r Hin. apply (Hc r Hin).
  - intros r Hin. destruct (Ht r Hin) as (? & ? & _). done.
  - intros r Hin. apply (Hl r Hin).
  - intros r Hin. apply (Hm r Hin).
Qed.

(** X13. In every state the database can reach, the amount of each
    transaction is NaN or a decimal with two fractional digits and at most
    eight digits before the point. *)
Theorem amounts_fit_decimal_10_2 (db : database) (r : Transactions.row) :
  reachable db →
  r ∈ transactions db →
  Transactions.amount r = NaN
  ∨ ∃ d, Transactions.amount r = Finite d 2 ∧ (Z.abs d < 10 ^ 10)%Z.
Proof.
  intros (_ & Ht & _)%reachable_rows_fit Hin.
  rewrite Forall_forall in Ht. by destruct (Ht r Hin) as (_ & _ & ?).
Qed.

(** **** Sequences *)

Lemma sequences_le_refl db : sequences_le db db.
Proof. unfold sequences_le. lia. Qed.

Lemma sequences_le_trans a b c : sequences_le a b → sequences_le b c → sequences_le a c.
Proof. unfold sequences_le. lia. Qed.

Lemma insert_cardholder_sequences now v db :
  sequences_le db (insert_cardholder now v db).1.
Proof.
  unfold insert_cardholder.
  assert (sequences_le db (new_cardholder now v db).1) as Hnew.
  { unfold new_cardholder.
    match goal with
    | |- context [match ?chain with inl _ => _ | inr _ => _ end] =>
        destruct chain as [e|[[[[[id last] name] card] account] profile]] eqn:H
    end; simpl; [apply sequences_le_refl|].
    crack H. injection H as <- <- <- <- <- <-.
    match goal with H : serial _ _ _ = inr _ |- _ => apply serial_inv in H as [H _] end.
    unfold sequences_le. simpl. lia. }
  destruct (new_cardholder now v db) as [db1 [e|r]]; simpl in *; [done|].
  by destruct (check_cardholder r db1).
Qed.

Lemma insert_transaction_sequences now v db :
  sequences_le db (insert_transaction now v db).1.
Proof.
  unfold insert_transaction.
  assert (sequences_le db (new_transaction now v db).1) as Hnew.
  { unfold new_transaction.
    match goal with
    | |- context [match ?chain with inl _ => _ | inr _ => _ end] =>
        destruct chain as [e|[[[[[id last] holder] amount] merchant] location]] eqn:H
    end; simpl; [apply sequences_le_refl|].
    crack H. injection H as <- <- <- <- <- <-.
    match goal with H : serial _ _ _ = inr _ |- _ => apply serial_inv in H as [H _] end.
    unfold sequences_le. simpl. lia. }
  destruct (new_transaction now v db) as [db1 [e|r]]; simpl in *; [done|].
  by destruct (check_transaction r db1).
Qed.

Lemma insert_log_sequences now v db :
  sequences_le db (insert_log now v db).1.
Proof.
  unfold insert_log.
  assert (sequences_le db (new_log now v db).1) as Hnew.
  { unfold new_log.
    match goal with
    | |- context [match ?chain with inl _ => _ | inr _ => _ end] =>
        destruct chain as [e|[[[[[[id last] txn] rf] lr] final] decision]] eqn:H
    end; simpl; [apply sequences_le_refl|].
    crack H. injection H as <- <- <- <- <- <- <-.
    match goal with H : serial _ _ _ = inr _ |- _ => apply serial_inv in H as [H _] end.
    unfold sequences_le. simpl. lia. }
  destruct (new_log now v db) as [db1 [e|r]]; simpl in *; [done|].
  by destruct (check_log r db1).
Qed.

Lemma insert_case_sequences now v db :
  sequences_le db (insert_case now v db).1.
Proof.
  unfold insert_case.
  assert (sequences_le db (new_case now v db).1) as Hnew.
  { unfold new_case.
    match goal with
    | |- context [match ?chain with inl _ => _ | inr _ => _ end] =>
        destruct chain as [e|[[[[id last] txn] risk] status]] eqn:H
    end; simpl; [apply sequences_le_refl|].
    crack H. injection H as <- <- <- <- <-.
    match goal with H : serial _ _ _ = inr _ |- _ => apply serial_inv in H as [H _] end.
    unfold sequences_le. simpl. lia. }
  destruct (new_case now v db) as [db1 [e|r]]; simpl in *; [done|].
  by destruct (check_case r db1).
Qed.

(** X17. No statement, failed or not, ever moves a sequence back. *)
Theorem sequences_never_go_back (now : timestamp) (st : statement) (db : database) :
  sequences_le db (execute now st db).1.
Proof.
  assert (∀ run : database → database * option sql_error,
            sequences_le db (run db).1 →
            sequences_le db
              (match run db with
               | (db', Some e) => (rollback db db', Some e)
               | (db', None) =>
                   match foreign_keys st db db' with
                   | inl e => (rollback db db', Some e)
                   | inr _ => (db', None)
                   end
               end).1) as Hwrap.
  { intros run Hrun. destruct (run db) as [db' [e|]]; [done|].
    by destruct (foreign_keys st db db'). }
  unfold execute. apply Hwrap.
  destruct st as [rows|rows|rows|rows];
    apply (insert_rows_preserves (sequences_le db));
    try apply sequences_le_refl; intros v db0 H0;
    (eapply sequences_le_trans; [exact H0|]).
  - apply insert_cardholder_sequences.
  - apply insert_transaction_sequences.
  - apply insert_log_sequences.
  - apply insert_case_sequences.
Qed.

(** X16. An id taken from the sequence is used up whether or not the row
    then goes in: when the values of an INSERT into cardholders make up a
    row and leave cardholder_id to its default, the row has the next value
    of the sequence and the sequence stands at that value afterwards, even
    if the statement failed on an index. *)
Theorem serial_value_is_used_up
  (now : timestamp) (v : Cardholders.Insert.values) (db db1 : database)
  (r : Cardholders.row) :
  Cardholders.Insert.cardholder_id v = DEFAULT →
  new_cardholder now v db = (db1, inr r) →
  let out := execute now (INSERT_INTO_cardholders [v]) db in
  Cardholders.cardholder_id r = (cardholders_cardholder_id_seq db + 1)%Z
  ∧ cardholders_cardholder_id_seq out.1 = (cardholders_cardholder_id_seq db + 1)%Z.
Proof.
  intros Hid Hnew. cbv zeta.
  assert (Cardholders.cardholder_id r = (cardholders_cardholder_id_seq db + 1)%Z
          ∧ cardholders_cardholder_id_seq db1
            = (cardholders_cardholder_id_seq db + 1)%Z) as [Hr Hseq].
  { unfold new_cardholder in Hnew. rewrite Hid in Hnew. simpl in Hnew.
    crack Hnew. injection Hnew as <- <-.
    match goal with
    | H : bind (nextval ?name ?last) ?k = inr _ |- _ =>
        change (bind (nextval name last) k) with (serial name last DEFAULT) in H;
        apply serial_inv in H as [_ H]; destruct (H eq_refl) as [-> ->]
    end.
    simpl in *. by simplify_eq. }
  split; [done|].
  rewrite execute_one_cardholder. unfold insert_cardholder. rewrite Hnew.
  by destruct (check_cardholder r db1).
Qed.

Lemma serial_value_is_used_up_witness :
  Cardholders.cardholder_id repeated_card_row
  = (cardholders_cardholder_id_seq installed + 1)%Z
  ∧ cardholders_cardholder_id_seq
      (execute 1%Z (INSERT_INTO_cardholders [repeated_card]) installed).1
    = (cardholders_cardholder_id_seq installed + 1)%Z.
Proof.
  apply (serial_value_is_used_up 1%Z repeated_card installed
           (with_cardholders_seq 3 installed) repeated_card_row).
  - reflexivity.
  - vm_compute. reflexivity.
Defined.

(** **** Rows that go in, rows that do not *)

(** The INSERT supplies a value for the column. *)
Definition supplied {A} (i : input A) : Prop := ∃ a, i = Value a.

(** A cardholder with a name, a card number and an account number, the
    rest left to the defaults. *)
Definition plain_cardholder (name card account : string) (profile : input string)
  : Cardholders.Insert.values :=
  Cardholders.Insert.VALUES DEFAULT (Value name) (Value card) (Value account)
    profile DEFAULT DEFAULT.

(** A cardholder without a name. *)
Definition nameless_cardholder : Cardholders.Insert.values :=
  Cardholders.Insert.VALUES DEFAULT DEFAULT
    (Value "4333333333333333") (Value "ACC004") NULL DEFAULT DEFAULT.

Definition first_purchase_row : Transactions.row :=
  Transactions.mkRow 1 1 (Finite 1999 2) "M-1001" "Lisbon"
    1700000000%Z (Some 1%Z).

Lemma new_cardholder_needs_values now v db :
  ¬ supplied (Cardholders.Insert.name v)
  ∨ ¬ supplied (Cardholders.Insert.card_number v)
  ∨ ¬ supplied (Cardholders.Insert.account_number v) →
  is_Some (insert_cardholder now v db).2.
Proof.
  intros Hmissing. unfold insert_cardholder.
  destruct (new_cardholder now v db) as [db1 [e|r]] eqn:H; simpl; [by eexists|].
  exfalso. unfold new_cardholder in H.
  destruct v as [id name card account profile created updated].
  simpl in Hmissing, H. crack H.
  repeat match goal with
  | H : not_null _ (or_default None _) = inr _ |- _ =>
      apply not_null_inv in H; subst
  end.
  repeat match goal with
  | H : convert _ _ = inr (Value _) |- _ =>
      apply convert_inv in H as (? & -> & _)
  end.
  destruct Hmissing as [Hno|[Hno|Hno]]; apply Hno; by eexists.
Qed.

(** X14. A cardholder cannot be stored without a name, a card number and an
    account number: a statement with a row that leaves one of them out, or
    gives NULL for it, fails and adds no row at all. *)
Theorem cardholder_needs_name_card_account
  (now : timestamp) (rows : list Cardholders.Insert.values)
  (v : Cardholders.Insert.values) (db : database) :
  v ∈ rows →
  ¬ supplied (Cardholders.Insert.name v)
  ∨ ¬ supplied (Cardholders.Insert.card_number v)
  ∨ ¬ supplied (Cardholders.Insert.account_number v) →
  let out := execute now (INSERT_INTO_cardholders rows) db in
  is_Some out.2 ∧ cardholders out.1 = cardholders db.
Proof.
  intros Hin Hmissing. cbv zeta.
  assert (is_Some (execute now (INSERT_INTO_cardholders rows) db).2) as [e He].
  { assert (is_Some (insert_rows (insert_cardholder now) rows db).2) as [e He].
    { apply (insert_rows_stops _ v); [|done].
      intros db0. by apply new_cardholder_needs_values. }
    unfold execute. simpl.
    destruct (insert_rows (insert_cardholder now) rows db) as [db' [e0|]];
      simpl in *; [by eexists|done]. }
  split; [by eexists|]. by apply (execute_failed _ _ _ _ He).
Qed.

Lemma cardholder_needs_name_card_account_witness :
  is_Some (execute 1%Z (INSERT_INTO_cardholders [repeated_card; nameless_cardholder])
             installed).2
  ∧ cardholders
      (execute 1%Z (INSERT_INTO_cardholders [repeated_card; nameless_cardholder])
         installed).1
    = cardholders installed.
Proof.
  apply (cardholder_needs_name_card_account 1%Z _ nameless_cardholder installed).
  - apply list_elem_of_further, list_elem_of_here.
  - left. intros [a Ha]. discriminate.
Defined.

(** A profile the column takes: left out, NULL, or the text of a JSON
    document, here of at most 1024 characters; [document] is what the row
    then holds. *)
Definition acceptable_profile (profile : input string) (document : option jsonb)
  : Prop :=
  match profile with
  | Value text =>
      text_within 1024 text ∧ is_Some document ∧ jsonb_in text = document
  | _ => document = None
  end.

(** X15. A new cardholder does go in: with a name, a card number and an
    account number that are text and fit their columns, a card number that
    is not in the table, a profile that is absent or a JSON document, and
    the next value of the sequence free, the statement succeeds and stores
    exactly that row, under the next id and with both timestamps set to the
    time of the statement. *)
Theorem new_cardholder_is_stored
  (now : timestamp) (db : database) (name card account : string)
  (profile : input string) (document : option jsonb) :
  text_within 100 name →
  text_within 16 card →
  text_within 20 account →
  acceptable_profile profile document →
  has_card_number card db = false →
  (cardholders_cardholder_id_seq db < 2147483647)%Z →
  has_cardholder (cardholders_cardholder_id_seq db + 1) db = false →
  execute now (INSERT_INTO_cardholders [plain_cardholder name card account profile]) db
  = (add_cardholder
       (Cardholders.mkRow (cardholders_cardholder_id_seq db + 1) name card account
          document (Some now) (Some now))
       (with_cardholders_seq (cardholders_cardholder_id_seq db + 1) db),
     None).
Proof.
  intros Hname Hcard Haccount Hprofile Hfree Hseq Hid.
  assert (∃ stored,
            convert (jsonb_column "behavior_profile") profile = inr stored
            ∧ or_default None stored = document) as (stored & Hconv & Hdoc).
  { destruct profile as [| |text]; simpl in Hprofile.
    - exists DEFAULT. by subst.
    - exists NULL. by subst.
    - destruct Hprofile as (_ & [j ->] & Hj). exists (Value j).
      unfold convert, jsonb_column. by rewrite Hj. }
  rewrite execute_one_cardholder.
  unfold insert_cardholder, new_cardholder, plain_cardholder.
  cbn [Cardholders.Insert.cardholder_id Cardholders.Insert.name
       Cardholders.Insert.card_number Cardholders.Insert.account_number
       Cardholders.Insert.behavior_profile Cardholders.Insert.created_at
       Cardholders.Insert.updated_at].
  rewrite Hconv.
  cbn [convert bind].
  rewrite (varchar_within 100 "name" name Hname).
  rewrite (varchar_within 16 "card_number" card Hcard).
  rewrite (varchar_within 20 "account_number" account Haccount).
  cbn [bind serial]. unfold nextval.
  apply Z.ltb_lt in Hseq. rewrite Hseq.
  cbn [bind not_null or_default].
  unfold check_cardholder, has_cardholder, has_card_number in *.
  cbn [cardholders with_cardholders_seq Cardholders.cardholder_id
       Cardholders.card_number].
  rewrite Hid, Hfree. cbn [unique bind].
  by rewrite <- Hdoc.
Qed.

Lemma new_cardholder_is_stored_witness :
  execute 1%Z
    (INSERT_INTO_cardholders
       [plain_cardholder "Eve Adams" "4333333333333333" "ACC003"
          (Value (sql_text "{'avg_transaction': 12.00}"))])
    installed
  = (add_cardholder
       (Cardholders.mkRow (cardholders_cardholder_id_seq installed + 1)
          "Eve Adams" "4333333333333333" "ACC003"
          (Some (JObject [("avg_transaction", JNumber 1200 2)]))
          (Some 1%Z) (Some 1%Z))
       (with_cardholders_seq (cardholders_cardholder_id_seq installed + 1) installed),
     None).
Proof.
  apply (new_cardholder_is_stored 1%Z installed "Eve Adams" "4333333333333333"
           "ACC003" (Value (sql_text "{'avg_transaction': 12.00}"))
           (Some (JObject [("avg_transaction", JNumber 1200 2)]))).
  - split; [vm_compute; reflexivity|simpl; lia].
  - split; [vm_compute; reflexivity|simpl; lia].
  - split; [vm_compute; reflexivity|simpl; lia].
  - split; [split; [vm_compute; reflexivity|simpl; lia]|].
    split; [by eexists|vm_compute; reflexivity].
  - vm_compute. reflexivity.
  - vm_compute. reflexivity.
  - vm_compute. reflexivity.
Defined.

Lemma new_case_status now v db db1 r :
  new_case now v db = (db1, inr r) →
  (CaseManagement.Insert.status v = NULL → CaseManagement.status r = None)
  ∧ (∀ s, CaseManagement.Insert.status v = Value s →
          (String.length s ≤ 20)%nat → CaseManagement.status r = Some s).
Proof.
  unfold new_case. intros H. split.
  - intros Hnull. rewrite Hnull in H. simpl in H. crack H. by injection H as <- <-.
  - intros s Hs Hlen. rewrite Hs in H. cbn [convert] in H.
    rewrite (varchar_fits 20 "status" s Hlen) in H. simpl in H.
    crack H. by injection H as <- <-.
Qed.

(** X18. Only an omitted status becomes 'Pending'. When a case goes in, a
    status given as NULL is stored as NULL, and a status of at most 20
    characters is stored as given. *)
Theorem given_status_is_stored
  (now : timestamp) (v : CaseManagement.Insert.values) (db : database) :
  (execute now (INSERT_INTO_case_management [v]) db).2 = None →
  ∃ r, case_management (execute now (INSERT_INTO_case_management [v]) db).1
       = case_management db ++ [r]
       ∧ (CaseManagement.Insert.status v = NULL → CaseManagement.status r = None)
       ∧ (∀ s, CaseManagement.Insert.status v = Value s →
               (String.length s ≤ 20)%nat → CaseManagement.status r = Some s).
Proof.
  rewrite execute_one_case. unfold insert_case.
  destruct (new_case now v db) as [db1 [e|r]] eqn:Hnew; simpl; [discriminate|].
  pose proof (new_case_frame now v db) as (_ & _ & _ & Hsame).
  rewrite Hnew in Hsame. simpl in Hsame.
  destruct (check_case r db1); simpl; [discriminate|].
  rewrite Hsame, drop_app_length.
  destruct (for_each _ [r]); simpl; [discriminate|].
  intros _. exists r. split; [by rewrite Hsame|]. by eapply new_case_status.
Qed.

(** A case for the first purchase that is closed from the start. *)
Definition closed_case : CaseManagement.Insert.values :=
  CaseManagement.Insert.VALUES DEFAULT
    (Value 1%Z) (Value "low") (Value "Closed") NULL DEFAULT DEFAULT.

Lemma given_status_is_stored_witness :
  ∃ r, case_management
         (execute 2%Z (INSERT_INTO_case_management [closed_case]) with_purchase).1
       = case_management with_purchase ++ [r]
       ∧ (CaseManagement.Insert.status closed_case = NULL →
          CaseManagement.status r = None)
       ∧ (∀ s, CaseManagement.Insert.status closed_case = Value s →
               (String.length s ≤ 20)%nat → CaseManagement.status r = Some s).
Proof.
  apply (given_status_is_stored 2%Z closed_case with_purchase).
  vm_compute. reflexivity.
Defined.

(** **** The sample rows *)

Definition sample_cards_taken (db : database) : Prop :=
  has_card_number "4111111111111111" db = true
  ∧ has_card_number "4222222222222222" db = true.

Lemma has_card_number_prefix number db db' :
  cardholders db `prefix_of` cardholders db' →
  has_card_number number db = true → has_card_number number db' = true.
Proof.
  intros [k Hk]. unfold has_card_number. rewrite Hk, existsb_app.
  by intros ->.
Qed.

Lemma reachable_sample_cards db : reachable db → sample_cards_taken db.
Proof.
  induction 1 as [now|db now st _ [H1 H2]].
  - split; vm_compute; reflexivity.
  - destruct (execute_grows now st db) as (Hprefix & _).
    split; by eapply has_card_number_prefix.
Qed.

(** X19. The card numbers of the two sample rows stay taken: in every state
    the database can reach, an INSERT of a cardholder with one of them
    fails and adds nothing. *)
Theorem sample_card_numbers_stay_taken
  (now : timestamp) (v : Cardholders.Insert.values) (db : database) (card : string) :
  reachable db →
  card ∈ ["4111111111111111"; "4222222222222222"] →
  Cardholders.Insert.card_number v = Value card →
  is_Some (execute now (INSERT_INTO_cardholders [v]) db).2
  ∧ cardholders (execute now (INSERT_INTO_cardholders [v]) db).1 = cardholders db.
Proof.
  intros [H1 H2]%reachable_sample_cards Hcard Hv.
  apply elem_of_cons in Hcard as [->|Hcard];
    [|apply list_elem_of_singleton in Hcard as ->].
  - by apply (duplicate_card_number_never_inserted now v db
                "4111111111111111" "4111111111111111").
  - by apply (duplicate_card_number_never_inserted now v db
                "4222222222222222" "4222222222222222").
Qed.

Lemma sample_card_numbers_stay_taken_witness :
  is_Some (execute 5%Z (INSERT_INTO_cardholders [repeated_card]) with_purchase).2
  ∧ cardholders (execute 5%Z (INSERT_INTO_cardholders [repeated_card]) with_purchase).1
    = cardholders with_purchase.
Proof.
  apply (sample_card_numbers_stay_taken 5%Z repeated_card with_purchase
           "4111111111111111").
  - repeat constructor.
  - apply list_elem_of_here.
  - reflexivity.
Defined.

(** X20. The tables depend on each other in the order the script creates
    them: while there is no transaction, no detection log and no case can
    be stored, whatever the rows say. *)
Theorem logs_and_cases_need_a_transaction
  (now : timestamp) (db : database)
  (logs : list FraudDetectionLogs.Insert.values)
  (cases : list CaseManagement.Insert.values) :
  transactions db = [] →
  (logs ≠ [] → is_Some (execute now (INSERT_INTO_fraud_detection_logs logs) db).2)
  ∧ (cases ≠ [] → is_Some (execute now (INSERT_INTO_case_management cases) db).2).
Proof.
  intros Hempty. split; intros Hrows.
  - destruct (execute_logs now logs db) as (_ & _ & _ & H).
    destruct (execute now (INSERT_INTO_fraud_detection_logs logs) db).2;
      [by eexists|].
    destruct H as (added & _ & Hlen & Hfk). exfalso.
    destruct added as [|r added]; [by destruct logs|].
    apply Forall_cons in Hfk as [Hfk _].
    unfold has_transaction in Hfk. by rewrite Hempty in Hfk.
  - destruct (execute_cases now cases db) as (_ & _ & _ & H).
    destruct (execute now (INSERT_INTO_case_management cases) db).2;
      [by eexists|].
    destruct H as (added & _ & Hlen & Hfk). exfalso.
    destruct added as [|r added]; [by destruct cases|].
    apply Forall_cons in Hfk as [Hfk _].
    unfold has_transaction in Hfk. by rewrite Hempty in Hfk.
Qed.

Lemma logs_and_cases_need_a_transaction_witness :
  ([undefined_score] ≠ [] →
   is_Some (execute 1%Z (INSERT_INTO_fraud_detection_logs [undefined_score]) installed).2)
  ∧ ([opened_case] ≠ [] →
     is_Some (execute 1%Z (INSERT_INTO_case_management [opened_case]) installed).2).
Proof.
  apply (logs_and_cases_need_a_transaction 1%Z installed
           [undefined_score] [opened_case]).
  reflexivity.
Defined.

(** **** Rounding *)

Lemma round_to_scale_close (t : nat) (d : Z) (s : nat) :
  (2 * Z.abs (round_to_scale t d s * 10 ^ Z.of_nat s - d * 10 ^ Z.of_nat t)
   ≤ 10 ^ Z.of_nat s)%Z.
Proof.
  unfold round_to_scale. destruct (s <=? t)%nat eqn:Hle.
  - apply Nat.leb_le in Hle.
    rewrite <- Z.mul_assoc, <- Z.pow_add_r by lia.
    replace (Z.of_nat (t - s) + Z.of_nat s)%Z with (Z.of_nat t) by lia.
    rewrite Z.sub_diag. simpl.
    pose proof (Z.pow_nonneg 10 (Z.of_nat s)). lia.
  - apply Nat.leb_gt in Hle. cbv zeta.
    replace (Z.of_nat s) with (Z.of_nat (s - t) + Z.of_nat t)%Z at 1 2 by lia.
    rewrite Z.pow_add_r by lia.
    replace (Z.of_nat (s - t)) with (Z.succ (Z.of_nat (s - t - 1))) by lia.
    rewrite Z.pow_succ_r by lia.
    set (h := (10 ^ Z.of_nat (s - t - 1))%Z).
    set (T := (10 ^ Z.of_nat t)%Z).
    assert (0 < h)%Z as Hh by (apply Z.pow_pos_nonneg; lia).
    assert (0 < T)%Z as HT by (apply Z.pow_pos_nonneg; lia).
    replace (10 * h / 2)%Z with (5 * h)%Z
      by (apply Z.div_unique_exact; lia).
    pose proof (Z.div_mod (Z.abs d + 5 * h) (10 * h) ltac:(lia)) as Hdiv.
    pose proof (Z.mod_pos_bound (Z.abs d + 5 * h) (10 * h) ltac:(lia)) as Hmod.
    set (q := ((Z.abs d + 5 * h) / (10 * h))%Z) in *.
    set (m := ((Z.abs d + 5 * h) mod (10 * h))%Z) in *.
    set (P := (10 * h * q)%Z) in *.
    replace (Z.sgn d * q * (10 * h * T) - d * T)%Z
      with ((Z.sgn d * P - d) * T)%Z by (unfold P; ring).
    rewrite Z.abs_mul, (Z.abs_eq T) by lia.
    rewrite Z.mul_assoc.
    apply Z.mul_le_mono_nonneg_r; [lia|].
    assert (Z.sgn d = 1 ∧ 0 < d ∨ Z.sgn d = 0 ∧ d = 0 ∨ Z.sgn d = -1 ∧ d < 0)%Z
      as [[-> Hd]|[[-> Hd]|[-> Hd]]] by lia; lia.
Qed.

(** X21. An amount is stored to the nearest cent: when the values of an
    INSERT into transactions make up a row and the amount given is the
    decimal d / 10^s, the row holds c / 100 for a whole number of cents c
    that differs from the amount by half a cent at most; in particular an
    amount with two decimals or fewer is stored exactly. *)
Theorem amount_is_rounded_to_the_cent
  (now : timestamp) (v : Transactions.Insert.values) (db db1 : database)
  (r : Transactions.row) (d : Z) (s : nat) :
  Transactions.Insert.amount v = Value (Finite d s) →
  new_transaction now v db = (db1, inr r) →
  ∃ c, Transactions.amount r = Finite c 2
       ∧ (2 * Z.abs (c * 10 ^ Z.of_nat s - d * 100) ≤ 10 ^ Z.of_nat s)%Z
       ∧ ((s ≤ 2)%nat → c = (d * 10 ^ Z.of_nat (2 - s))%Z).
Proof.
  intros Hamount Hnew. unfold new_transaction in Hnew.
  rewrite Hamount in Hnew. cbn [convert] in Hnew.
  destruct (decimal 10 2 "amount" (Finite d s)) as [e|stored] eqn:Hdec.
  { crack Hnew. }
  assert (stored = Finite (round_to_scale 2 d s) 2) as ->.
  { simpl in Hdec.
    destruct (Z.abs _ <? _)%Z in Hdec; by simplify_eq. }
  crack Hnew. injection Hnew as <- <-.
  repeat match goal with
  | H : not_null _ (or_default None _) = inr _ |- _ =>
      apply not_null_inv in H
  end.
  simplify_eq. cbn [Transactions.amount].
  exists (round_to_scale 2 d s). split; [done|]. split.
  - apply (round_to_scale_close 2 d s).
  - intros Hs. unfold round_to_scale. by apply Nat.leb_le in Hs as ->.
Qed.

(** A purchase of 19.995, which is stored as 20.00. *)
Definition rounded_purchase : Transactions.Insert.values :=
  Transactions.Insert.VALUES DEFAULT
    (Value 1%Z) (Value (Finite 19995 3)) (Value "M-1001") (Value "Lisbon")
    (Value 1700000000%Z) DEFAULT.

Definition rounded_purchase_row : Transactions.row :=
  Transactions.mkRow 1 1 (Finite 2000 2) "M-1001" "Lisbon"
    1700000000%Z (Some 1%Z).

Lemma amount_is_rounded_to_the_cent_witness :
  ∃ c, Transactions.amount rounded_purchase_row = Finite c 2
       ∧ (2 * Z.abs (c * 10 ^ Z.of_nat 3 - 19995 * 100) ≤ 10 ^ Z.of_nat 3)%Z
       ∧ ((3 ≤ 2)%nat → c = (19995 * 10 ^ Z.of_nat (2 - 3))%Z).
Proof.
  apply (amount_is_rounded_to_the_cent 1%Z rounded_purchase installed
           (with_transactions_seq 1 installed) rounded_purchase_row 19995 3).
  - reflexivity.
  - vm_compute. reflexivity.
Defined.

(** **** Instances in the sample database *)

Lemma reachable_with_purchase : reachable with_purchase.
Proof. repeat constructor. Qed.

Lemma card_numbers_stay_unique_witness : 1 = 1.
Proof.
  apply (card_numbers_stay_unique with_purchase
           (Cardholders.mkRow 2 "Sarah Johnson" "4222222222222222" "ACC002"
              (Some sarah_johnson) (Some 0%Z) (Some 0%Z))
           (Cardholders.mkRow 2 "Sarah Johnson" "4222222222222222" "ACC002"
              (Some sarah_johnson) (Some 0%Z) (Some 0%Z)) 1 1).
  - exact reachable_with_purchase.
  - vm_compute. reflexivity.
  - vm_compute. reflexivity.
  - reflexivity.
Defined.

Lemma primary_keys_stay_unique_witness :
  NoDup (map Cardholders.cardholder_id (cardholders with_purchase))
  ∧ NoDup (map Transactions.transaction_id (transactions with_purchase))
  ∧ NoDup (map FraudDetectionLogs.log_id (fraud_detection_logs with_purchase))
  ∧ NoDup (map CaseManagement.case_id (case_management with_purchase)).
Proof.
  apply (primary_keys_stay_unique with_purchase). exact reachable_with_purchase.
Defined.

Lemma references_always_hold_witness :
  (∀ t, t ∈ transactions with_purchase →
     ∃ c, c ∈ cardholders with_purchase
          ∧ Cardholders.cardholder_id c = Transactions.cardholder_id t)
  ∧ (∀ l, l ∈ fraud_detection_logs with_purchase →
       ∃ t, t ∈ transactions with_purchase
            ∧ Transactions.transaction_id t = FraudDetectionLogs.transaction_id l)
  ∧ (∀ c, c ∈ case_management with_purchase →
       ∃ t, t ∈ transactions with_purchase
            ∧ Transactions.transaction_id t = CaseManagement.transaction_id c).
Proof.
  apply (references_always_hold with_purchase). exact reachable_with_purchase.
Defined.

Lemma strings_fit_their_columns_witness :
  (∀ r, r ∈ cardholders with_purchase →
     (String.length (Cardholders.name r) ≤ 100)%nat
     ∧ (String.length (Cardholders.card_number r) ≤ 16)%nat
     ∧ (String.length (Cardholders.account_number r) ≤ 20)%nat)
  ∧ (∀ r, r ∈ transactions with_purchase →
       (String.length (Transactions.merchant_id r) ≤ 20)%nat
       ∧ (String.length (Transactions.location r) ≤ 100)%nat)
  ∧ (∀ r, r ∈ fraud_detection_logs with_purchase →
       (String.length (FraudDetectionLogs.decision r) ≤ 20)%nat)
  ∧ (∀ r, r ∈ case_management with_purchase →
       (String.length (CaseManagement.risk_level r) ≤ 10)%nat
       ∧ ∀ s, CaseManagement.status r = Some s → (String.length s ≤ 20)%nat).
Proof.
  apply (strings_fit_their_columns with_purchase). exact reachable_with_purchase.
Defined.

Lemma amounts_fit_decimal_10_2_witness :
  Transactions.amount first_purchase_row = NaN
  ∨ ∃ d, Transactions.amount first_purchase_row = Finite d 2
         ∧ (Z.abs d < 10 ^ 10)%Z.
Proof.
  apply (amounts_fit_decimal_10_2 with_purchase first_purchase_row).
  - exact reachable_with_purchase.
  - vm_compute. constructor.
Defined.

End Schema.
